(** * Acronym search of obsidian-switcher-plus: a shallow embedding

    The development follows the class [AcronymSearcher] of the plugin:
    the word segmenter [extractWords], the initials index
    [createSearchableString], the relevance score [calculateScore], and the
    two entry points [searchText] and [searchWithFallback].

    Conventions of the embedding.
    - A JavaScript string is the list of its UTF-16 code units ([N]).
    - [null]/[undefined] arguments are [None].
    - A JavaScript number that holds a length or an index is a [Z]; the
      score is a rational ([Q]): the arithmetic of [calculateScore] is read
      exactly, without the rounding of IEEE doubles.
    - A call that would raise a [TypeError] returns [TypeError]. *)

From Stdlib Require Import Ascii String.
From Stdlib Require Import List Bool NArith ZArith QArith Qminmax Lia Lqa.
From Stdlib Require Import Sorted Permutation.
Import ListNotations.

Local Open Scope N_scope.
Local Open Scope list_scope.

(** ** JavaScript strings and the built-ins the searcher calls *)

Module JS.

Definition codeUnit := N.
Definition jsString := list codeUnit.

(** An ASCII literal as a JavaScript string. *)
Definition str (s : String.string) : jsString :=
  map N_of_ascii (list_ascii_of_string s).
Arguments str s%_string.

Definition length (s : jsString) : Z := Z.of_nat (List.length s).

(** Truthiness of a string value: [null], [undefined] and [''] are falsy. *)
Definition truthy (s : option jsString) : bool :=
  match s with
  | None => false
  | Some [] => false
  | Some (_ :: _) => true
  end.

Definition unitEqb (a b : codeUnit) : bool := N.eqb a b.

Definition inRange (lo hi c : codeUnit) : bool := (lo <=? c) && (c <=? hi).

(** ECMAScript WhiteSpace and LineTerminator code points: what
    [String.prototype.trim] strips and what [\s] matches. *)
Definition isWhiteSpace (c : codeUnit) : bool :=
  inRange 9 13 c            (* TAB, LF, VT, FF, CR *)
  || (c =? 32)              (* SPACE *)
  || (c =? 160)             (* NO-BREAK SPACE *)
  || (c =? 5760)            (* U+1680 *)
  || inRange 8192 8202 c    (* U+2000 .. U+200A *)
  || (c =? 8232) || (c =? 8233)   (* U+2028, U+2029 *)
  || (c =? 8239)            (* U+202F *)
  || (c =? 8287)            (* U+205F *)
  || (c =? 12288)           (* U+3000 *)
  || (c =? 65279).          (* U+FEFF *)

Fixpoint trimStart (s : jsString) : jsString :=
  match s with
  | [] => []
  | c :: s' => if isWhiteSpace c then trimStart s' else s
  end.

Definition trimEnd (s : jsString) : jsString := rev (trimStart (rev s)).

Definition trim (s : jsString) : jsString := trimEnd (trimStart s).

(** [String.prototype.toLowerCase], one code unit at a time.  The table
    covers Basic Latin, the Latin-1 Supplement and U+0130 (LATIN CAPITAL
    LETTER I WITH DOT ABOVE), the one code point whose unconditional
    lower-case mapping is longer than itself: it becomes U+0069 U+0307.
    Cased letters of other blocks are left as they are. *)
Definition lowerUnit (c : codeUnit) : jsString :=
  if inRange 65 90 c then [c + 32]
  else if inRange 192 222 c && negb (c =? 215) then [c + 32]
  else if c =? 304 then [105; 775]
  else [c].

Definition toLowerCase (s : jsString) : jsString := flat_map lowerUnit s.

(** [s.split(sep)] for a one-unit separator. *)
Fixpoint split (sep : codeUnit) (s : jsString) : list jsString :=
  match s with
  | [] => [[]]
  | c :: s' =>
      if unitEqb c sep then [] :: split sep s'
      else match split sep s' with
           | p :: ps => (c :: p) :: ps
           | [] => [[c]]
           end
  end.

(** [parts.join(sep)]. *)
Fixpoint join (sep : jsString) (parts : list jsString) : jsString :=
  match parts with
  | [] => []
  | p :: ps =>
      match ps with
      | [] => p
      | _ :: _ => p ++ sep ++ join sep ps
      end
  end.

Fixpoint startsWith (s prefix : jsString) : bool :=
  match prefix, s with
  | [], _ => true
  | _ :: _, [] => false
  | a :: prefix', b :: s' => unitEqb a b && startsWith s' prefix'
  end.

(** [s.endsWith(suffix)]: the units of [s] from [length s - length suffix]
    on are those of [suffix]. *)
Definition endsWith (s suffix : jsString) : bool :=
  (List.length suffix <=? List.length s)%nat
  && startsWith (skipn (List.length s - List.length suffix) s) suffix.

(** [hay.indexOf(needle)], scanning from position [pos]; -1 when absent. *)
Fixpoint indexOfFrom (pos : Z) (hay needle : jsString) {struct hay} : Z :=
  if startsWith hay needle then pos
  else match hay with
       | [] => (-1)%Z
       | _ :: hay' => indexOfFrom (pos + 1) hay' needle
       end.

Definition indexOf (hay needle : jsString) : Z := indexOfFrom 0 hay needle.

(** Result of a call: a value, or a [TypeError] thrown. *)
Inductive outcome (A : Type) : Type :=
| Return (a : A)
| TypeError.
Arguments Return {A} a.
Arguments TypeError {A}.

Definition bind {A B} (m : outcome A) (k : A -> outcome B) : outcome B :=
  match m with
  | Return a => k a
  | TypeError => TypeError
  end.

(** [xs.map(f)] for a callback that may throw. *)
Fixpoint mapM {A B} (f : A -> outcome B) (xs : list A) : outcome (list B) :=
  match xs with
  | [] => Return []
  | x :: xs' =>
      bind (f x) (fun y => bind (mapM f xs') (fun ys => Return (y :: ys)))
  end.

End JS.

Import JS.

Notation "x <- m ;; k" := (bind m (fun x => k))
  (at level 61, m at next level, right associativity).

(** ** Results *)

(** Obsidian's [SearchResult]: a score and the highlighted ranges. *)
Module SearchResult.
Record t : Type := mk { score : Q; matches : list (Z * Z) }.
End SearchResult.

Module AcronymSearchResult.
Record t : Type := mk { match_ : option SearchResult.t; score : Q }.
End AcronymSearchResult.

(** The caller-supplied [PathSegments]; either field may be [null] at run
    time. *)
Module PathSegments.
Record t : Type := mk { basename : option jsString; path : option jsString }.
End PathSegments.

(** ** The class [AcronymSearcher] *)

Module AcronymSearcher.

Record t : Type := mk { query : jsString }.

(** [constructor(query)]: [(query ?? '').trim().toLowerCase()]. *)
Definition new (query : option jsString) : t :=
  mk (toLowerCase (trim (match query with Some q => q | None => [] end))).

Definition isDelimiter (c : codeUnit) : bool :=
  isWhiteSpace c || (c =? 45) || (c =? 95) || (c =? 46).

Definition isLower (c : codeUnit) : bool := inRange 97 122 c.
Definition isUpper (c : codeUnit) : bool := inRange 65 90 c.
Definition isLetter (c : codeUnit) : bool := isUpper c || isLower c.
Definition isDigit (c : codeUnit) : bool := inRange 48 57 c.

Definition nonEmpty (s : jsString) : bool :=
  match s with [] => false | _ :: _ => true end.

(** [s.split(/[\s\-_.]+/)].  [pending] holds, reversed, the units read
    since the last split point; [inRun] tells that the current unit
    continues a delimiter run that was already matched. *)
Fixpoint splitDelimiters (inRun : bool) (pending s : jsString)
  : list jsString :=
  match s with
  | [] => [rev pending]
  | c :: s' =>
      if isDelimiter c then
        if inRun then splitDelimiters true pending s'
        else rev pending :: splitDelimiters true [] s'
      else splitDelimiters false (c :: pending) s'
  end.

(** The zero-width pattern
    [(?<=[a-z])(?=[A-Z])|(?<=[A-Za-z])(?=[0-9])|(?<=[0-9])(?=[A-Za-z])]
    between two adjacent units. *)
Definition camelPattern (prev next : codeUnit) : bool :=
  (isLower prev && isUpper next)
  || (isLetter prev && isDigit next)
  || (isDigit prev && isLetter next).

(** [segment.split(camelPattern)]: [prev] is the unit before the position
    being tried. *)
Fixpoint splitCamelFrom (prev : codeUnit) (pending s : jsString)
  : list jsString :=
  match s with
  | [] => [rev pending]
  | c :: s' =>
      if camelPattern prev c then rev pending :: splitCamelFrom c [c] s'
      else splitCamelFrom c (c :: pending) s'
  end.

Definition splitCamel (segment : jsString) : list jsString :=
  match segment with
  | [] => [[]]
  | c :: s' => splitCamelFrom c [c] s'
  end.

Definition extractWords (filename : jsString) : list jsString :=
  if negb (nonEmpty filename) then []
  else
    let parts := split 46 filename in
    let multi := (1 <? List.length parts)%nat in
    let extension := if multi then last parts [] else [] in
    let parts := if multi then removelast parts else parts in
    let nameWithoutExt := join [46] parts in
    let segments := filter nonEmpty (splitDelimiters false [] nameWithoutExt) in
    let words :=
      flat_map (fun segment => filter nonEmpty (splitCamel segment)) segments in
    let words := if nonEmpty extension then words ++ [extension] else words in
    filter (fun word => (0 <? JS.length word)%Z) words.

(** [word[0].toLowerCase()]: [word[0]] is [undefined] for an empty word and
    the method call then throws. *)
Definition firstLower (word : jsString) : outcome jsString :=
  match word with
  | [] => TypeError
  | c :: _ => Return (toLowerCase [c])
  end.

Definition createSearchableString (words : list jsString) : outcome jsString :=
  initials <- mapM firstLower words ;;
  Return (concat initials).

Definition calculateScore (this : t) (searchableString : jsString)
    (matchIndex : Z) (filename : jsString) (isBasename : bool) : Q :=
  let score := 1%Q in
  let score := if (matchIndex =? 0)%Z then (score + 3)%Q else score in
  let score := if (1 <? JS.length (query this))%Z then (score + 2)%Q else score in
  let score := if isBasename then (score + 2)%Q else score in
  let queryLength := JS.length (query this) in
  let totalLetters := JS.length searchableString in
  let density := (inject_Z queryLength / inject_Z (Z.max totalLetters 1))%Q in
  let score := (score + density * 2)%Q in
  let score := if (queryLength =? totalLetters)%Z then (score + 2)%Q else score in
  let lengthPenalty :=
    (inject_Z (Z.max 0 (JS.length filename - 15)) * 0.02)%Q in
  let score := (score - lengthPenalty)%Q in
  let score :=
    if endsWith (toLowerCase filename) (str ".md") then (score + 0.5)%Q
    else score in
  let positionPenalty := (inject_Z matchIndex * 0.1)%Q in
  let score := (score - positionPenalty)%Q in
  Qmax 0.1 score.

(** State of the highlight loop of [searchText]. *)
Record loopState : Type :=
  mkLoop { charIndex : Z; queryIndex : Z; matches : list (Z * Z) }.

(** The [for] loop of [searchText] from iteration [i] on; [rest] is
    [words.slice(i)], so the loop condition [i < words.length] is
    [rest <> []]. *)
Fixpoint highlightLoop (this : t) (wordsLength matchIndex : Z)
    (rest : list jsString) (i : Z) (st : loopState) : loopState :=
  match rest with
  | [] => st
  | word :: rest' =>
      if (queryIndex st <? JS.length (query this))%Z then
        let st :=
          if ((matchIndex <=? i) && (i <? matchIndex + JS.length (query this)))%Z
          then mkLoop (charIndex st) (queryIndex st + 1)
                      (matches st ++ [(charIndex st, charIndex st + 1)%Z])
          else st in
        let st := mkLoop (charIndex st + JS.length word) (queryIndex st) (matches st) in
        let st :=
          if (i <? wordsLength - 1)%Z
          then mkLoop (charIndex st + 1) (queryIndex st) (matches st)
          else st in
        highlightLoop this wordsLength matchIndex rest' (i + 1) st
      else st
  end.

Definition noMatch : AcronymSearchResult.t := AcronymSearchResult.mk None 0.

Definition searchText (this : t) (text : option jsString) (isBasename : bool)
  : outcome AcronymSearchResult.t :=
  if negb (nonEmpty (query this)) || negb (truthy text) then Return noMatch
  else
    let text := match text with Some s => s | None => [] end in
    let words := extractWords text in
    searchableString <- createSearchableString words ;;
    let matchIndex := indexOf searchableString (query this) in
    if (matchIndex =? -1)%Z then Return noMatch
    else
      let score :=
        calculateScore this searchableString matchIndex text isBasename in
      let st :=
        highlightLoop this (Z.of_nat (List.length words)) matchIndex words 0
          (mkLoop 0 0 []) in
      Return (AcronymSearchResult.mk
                (Some (SearchResult.mk score (matches st))) score).

Definition matched (r : AcronymSearchResult.t) : bool :=
  match AcronymSearchResult.match_ r with Some _ => true | None => false end.

Definition searchWithFallback (this : t) (primaryText : option jsString)
    (pathSegments : option PathSegments.t) : outcome AcronymSearchResult.t :=
  result <- searchText this primaryText true ;;
  match pathSegments with
  | Some segs =>
      if negb (matched result) then
        result <- searchText this (PathSegments.basename segs) true ;;
        if negb (matched result) then
          searchText this (PathSegments.path segs) false
        else Return result
      else Return result
  | None => Return result
  end.

Definition hasSearchTerm (this : t) : bool :=
  negb (JS.length (query this) =? 0)%Z.

End AcronymSearcher.

Import AcronymSearcher.

(** The value of the local [matchIndex] of [searchText] (lines 123-127):
    the offset of the query in the searchable string of the text. *)
Definition matchIndexOf (this : t) (text : jsString) : outcome Z :=
  searchableString <- createSearchableString (extractWords text) ;;
  Return (indexOf searchableString (query this)).

(** ** The specification's reading of the components *)

Module Spec.

(** Section 4.1, step 2: the text before the last ['.'] and the text after
    it; [None] when the text has no ['.']. *)
Fixpoint splitLastDot (text : jsString) : option (jsString * jsString) :=
  match text with
  | [] => None
  | c :: rest =>
      match splitLastDot rest with
      | Some (stem, ext) => Some (c :: stem, ext)
      | None => if c =? 46 then Some ([], rest) else None
      end
  end.

Definition delimiter (c : codeUnit) : bool :=
  isWhiteSpace c || (c =? 45) || (c =? 95) || (c =? 46).

(** Step 3: the maximal delimiter-free runs of the stem, in order. *)
Fixpoint fragments (stem : jsString) : list jsString :=
  match stem with
  | [] => []
  | c :: rest =>
      if delimiter c then fragments rest
      else match fragments rest, rest with
           | f :: fs, d :: _ =>
               if delimiter d then [c] :: f :: fs else (c :: f) :: fs
           | _, _ => [[c]]
           end
  end.

(** The letters and digits of step 4 are those of Basic Latin. *)
Definition lowercase (c : codeUnit) : bool := (97 <=? c) && (c <=? 122).
Definition uppercase (c : codeUnit) : bool := (65 <=? c) && (c <=? 90).
Definition letter (c : codeUnit) : bool := lowercase c || uppercase c.
Definition digit (c : codeUnit) : bool := (48 <=? c) && (c <=? 57).

(** Step 4: is there a boundary between two adjacent units? *)
Definition boundary (c d : codeUnit) : bool :=
  (lowercase c && uppercase d)      (* camelCase *)
  || (letter c && digit d)          (* letter to digit *)
  || (digit c && letter d).         (* digit to letter *)

(** Step 4: a fragment cut at every boundary, nothing consumed. *)
Fixpoint cutAtBoundaries (fragment : jsString) : list jsString :=
  match fragment with
  | [] => []
  | c :: rest =>
      match cutAtBoundaries rest, rest with
      | w :: ws, d :: _ => if boundary c d then [c] :: w :: ws else (c :: w) :: ws
      | _, _ => [[c]]
      end
  end.

Definition isZeroLength (w : jsString) : bool :=
  match w with [] => true | _ :: _ => false end.

(** Section 4.1, steps 1 to 6. *)
Definition segment (text : jsString) : list jsString :=
  match text with
  | [] => []
  | _ :: _ =>
      let (stem, extension) :=
        match splitLastDot text with
        | Some p => p
        | None => (text, [])
        end in
      let words := flat_map cutAtBoundaries (fragments stem) in
      let words := if isZeroLength extension then words else words ++ [extension] in
      filter (fun w => negb (isZeroLength w)) words
  end.

(** Section 4.2: the lower-cased first character of every word, in order. *)
Definition buildIndex (words : list jsString) : jsString :=
  concat (map (fun w => toLowerCase (firstn 1 w)) words).

(** Section 4.3: the query occupies the positions [k .. k + |query| - 1] of
    the index. *)
Definition occursAt (index query : jsString) (k : nat) : Prop :=
  exists before after,
    index = before ++ query ++ after /\ List.length before = k.

(** Section 4.4: the additive model, term by term. *)
Definition score (matchIndex queryLength indexLength textLength : Z)
    (isBasenameOrPrimary endsWithMd : bool) : Q :=
  let bonus (b : bool) (q : Q) : Q := if b then q else 0%Q in
  Qmax 0.1
    (1
     + bonus (matchIndex =? 0)%Z 3
     + bonus (1 <? queryLength)%Z 2
     + bonus isBasenameOrPrimary 2
     + (inject_Z queryLength / inject_Z (Z.max indexLength 1)) * 2
     + bonus (queryLength =? indexLength)%Z 2
     - inject_Z (Z.max 0 (textLength - 15)) * 0.02
     + bonus endsWithMd 0.5
     - inject_Z matchIndex * 0.1)%Q.

(** Section 4.5: the running offset of word [i]: the lengths of the words
    before it and one unit for each boundary crossed. *)
Definition runningOffset (words : list jsString) (i : nat) : Z :=
  fold_right (fun w acc => (JS.length w + 1 + acc)%Z) 0%Z (firstn i words).

(** Section 4.5: one one-unit span for each word whose index lies in
    [[matchIndex, matchIndex + queryLength)]. *)
Definition spans (words : list jsString) (matchIndex queryLength : nat)
  : list (Z * Z) :=
  map (fun i => (runningOffset words i, (runningOffset words i + 1)%Z))
      (filter (fun i => (i <? List.length words)%nat)
              (seq matchIndex queryLength)).

End Spec.

(** ** Inputs used in the examples *)

(** ["İ.md"]: U+0130, then [".md"]. *)
Definition dottedCapitalI_md : jsString := 304 :: str ".md".

(** A 244-unit name: ["a-a-"] followed by 240 times ["x"]. *)
Definition longName : jsString := str "a-a-" ++ repeat 120 240.

(** ** Properties of results *)

(** The two score fields of a result agree. *)
Definition scoresAgree (r : AcronymSearchResult.t) : Prop :=
  match AcronymSearchResult.match_ r with
  | Some m => SearchResult.score m = AcronymSearchResult.score r
  | None => AcronymSearchResult.score r = 0%Q
  end.

(** A query that is [null], [undefined], empty or white space only. *)
Definition blank (raw : option jsString) : bool :=
  match raw with
  | Some q => forallb isWhiteSpace q
  | None => true
  end.

(** A word that the segmenter leaves whole: not empty, without a
    delimiter, and not cut by the zero-width split. *)
Definition atomic (w : jsString) : Prop :=
  nonEmpty w = true
  /\ forallb (fun c => negb (isDelimiter c)) w = true
  /\ splitCamel w = [w].

(** The one-unit span at the running offset of word [j]. *)
Definition spanOf (words : list jsString) (j : nat) : Z * Z :=
  (Spec.runningOffset words j, (Spec.runningOffset words j + 1)%Z).

(** ** The switcher: acronym results among the suggestions *)

(** Arrays and sets of strings, as [getSuggestions] uses them. *)
Module JSArray.

(** Equality of two strings, as [Set.prototype.has] compares them. *)
Fixpoint stringEqb (a b : jsString) : bool :=
  match a, b with
  | [], [] => true
  | x :: a', y :: b' => (x =? y) && stringEqb a' b'
  | _, _ => false
  end.

(** A [Set<string>] as the list of the strings added to it. *)
Definition setHas (set : list jsString) (s : jsString) : bool :=
  existsb (stringEqb s) set.

(** [x || 0] for a number [x]. *)
Definition orZero (x : Q) : Q := if Qeq_bool x 0 then 0%Q else x.

(** [Array.prototype.sort(comparefn)] is a stable sort: with a consistent
    comparator its result is the one of the stable insertion sort, where
    [x] moves behind [y] only when [comparefn(x, y) > 0]. *)
Fixpoint sortInsert {A : Type} (comparefn : A -> A -> Q) (x : A)
    (sorted : list A) : list A :=
  match sorted with
  | [] => [x]
  | y :: sorted' =>
      if Qle_bool (comparefn x y) 0 then x :: sorted
      else y :: sortInsert comparefn x sorted'
  end.

Definition sort {A : Type} (comparefn : A -> A -> Q) (xs : list A) : list A :=
  fold_right (sortInsert comparefn) [] xs.

End JSArray.

Import JSArray.

(** Obsidian's [TFile], with the three fields the switcher reads. *)
Module TFile.
Record t : Type := mk { name : jsString; basename : jsString; path : jsString }.
End TFile.

(** The members of the enumerations of [src/types] that the switcher
    writes into an acronym suggestion. *)
Module SuggestionType.
Inductive t : Type := File.
End SuggestionType.

Module MatchType.
Inductive t : Type := Basename.
End MatchType.

Module FileSuggestion.
Record t : Type :=
  mk { file : TFile.t;
       type : SuggestionType.t;
       match_ : SearchResult.t;
       matchType : MatchType.t;
       matchText : jsString }.
End FileSuggestion.

Module SwitcherPlus.

Definition maxAcronymResults : nat := 50.

(** The [for ... of] loop of [performAcronymSearch]. *)
Fixpoint collectAcronymResults (acronymSearcher : AcronymSearcher.t)
    (allFiles : list TFile.t) : outcome (list FileSuggestion.t) :=
  match allFiles with
  | [] => Return []
  | file :: rest =>
      result <- searchWithFallback acronymSearcher (Some (TFile.name file))
                  (Some (PathSegments.mk (Some (TFile.basename file))
                           (Some (TFile.path file)))) ;;
      acronymResults <- collectAcronymResults acronymSearcher rest ;;
      Return
        match AcronymSearchResult.match_ result with
        | Some m =>
            FileSuggestion.mk file SuggestionType.File m MatchType.Basename
              (TFile.name file)
            :: acronymResults
        | None => acronymResults
        end
  end.

(** The comparator [(a, b) => (b.match?.score || 0) - (a.match?.score || 0)]. *)
Definition byScore (a b : FileSuggestion.t) : Q :=
  (orZero (SearchResult.score (FileSuggestion.match_ b))
   - orZero (SearchResult.score (FileSuggestion.match_ a)))%Q.

Definition performAcronymSearch (query : jsString) (allFiles : list TFile.t)
  : outcome (list FileSuggestion.t) :=
  let acronymSearcher := AcronymSearcher.new (Some query) in
  acronymResults <- collectAcronymResults acronymSearcher allFiles ;;
  Return (firstn maxAcronymResults (sort byScore acronymResults)).

Section Host.

(** The suggestion kinds of [src/types] other than [FileSuggestion], and
    their [file] property when they have one. *)
Variable OtherSuggestion : Type.
Variable otherFile : OtherSuggestion -> option TFile.t.

Inductive AnySuggestion : Type :=
| OfFile (s : FileSuggestion.t)
| OfOther (s : OtherSuggestion).

(** [exMode.addPropertiesToStandardSuggestions], which is not part of the
    files at hand: what it does to one suggestion of the array it is
    given. *)
Variable addProperties : AnySuggestion -> AnySuggestion.

(** [result.file] when ['file' in result]. *)
Definition fileOf (result : AnySuggestion) : option TFile.t :=
  match result with
  | OfFile s => Some (FileSuggestion.file s)
  | OfOther s => otherFile s
  end.

Definition existingFilePaths (standardResults : list AnySuggestion)
  : list jsString :=
  flat_map
    (fun result =>
       match fileOf result with
       | Some file => [TFile.path file]
       | None => []
       end)
    standardResults.

Definition mergeSearchResults (standardResults : list AnySuggestion)
    (acronymResults : list FileSuggestion.t) : list AnySuggestion :=
  let existing := existingFilePaths standardResults in
  let uniqueAcronymResults :=
    filter
      (fun result =>
         negb (setHas existing (TFile.path (FileSuggestion.file result))))
      acronymResults in
  let uniqueAcronymResults :=
    map (fun result => addProperties (OfFile result)) uniqueAcronymResults in
  standardResults ++ uniqueAcronymResults.

(** [getSuggestions], given the query that [inputTextForStandardMode]
    returns, the suggestions of the system switcher for it, the option
    [enableAcronymSearch] and the files of the vault. *)
Definition getSuggestions (enableAcronymSearch : bool) (query : jsString)
    (results : list AnySuggestion) (allFiles : list TFile.t)
  : outcome (list AnySuggestion) :=
  let results := map addProperties results in
  if enableAcronymSearch && nonEmpty query
     && (0 <? JS.length (trim query))%Z
  then
    acronymResults <- performAcronymSearch (trim query) allFiles ;;
    Return (mergeSearchResults results acronymResults)
  else Return results.

End Host.

Arguments OfFile {OtherSuggestion} s.
Arguments OfOther {OtherSuggestion} s.
Arguments fileOf {OtherSuggestion} otherFile result.
Arguments existingFilePaths {OtherSuggestion} otherFile standardResults.
Arguments mergeSearchResults {OtherSuggestion} otherFile addProperties
  standardResults acronymResults.
Arguments getSuggestions {OtherSuggestion} otherFile addProperties
  enableAcronymSearch query results allFiles.

End SwitcherPlus.

Import SwitcherPlus.

(** A file of a vault, for the examples. *)
Definition exampleFile : TFile.t :=
  TFile.mk (str "my-first-class.py") (str "my-first-class")
    (str "src/my-first-class.py").

(** *** Notions used to state the properties of the switcher *)

(** The path segments [performAcronymSearch] passes for a file. *)
Definition segmentsOf (file : TFile.t) : PathSegments.t :=
  PathSegments.mk (Some (TFile.basename file)) (Some (TFile.path file)).

(** The suggestion [performAcronymSearch] builds for a file and its
    match. *)
Definition suggestionOf (file : TFile.t) (m : SearchResult.t)
  : FileSuggestion.t :=
  FileSuggestion.mk file SuggestionType.File m MatchType.Basename
    (TFile.name file).

Definition scoreOf (s : FileSuggestion.t) : Q :=
  SearchResult.score (FileSuggestion.match_ s).

(** [a] may stand before [b] in a list sorted by falling score. *)
Definition descending (a b : FileSuggestion.t) : Prop :=
  (scoreOf b <= scoreOf a)%Q.

(** ** Facts about the built-ins *)

Section Builtins.

Lemma unitEqb_eq (a b : codeUnit) : unitEqb a b = true <-> a = b.
Proof. apply N.eqb_eq. Qed.

Lemma startsWith_spec (p s : jsString) :
  startsWith s p = true <-> exists rest, s = p ++ rest.
Proof.
  revert s; induction p as [|a p IH]; intros s.
  - destruct s; simpl; split; eauto.
  - destruct s as [|b s]; simpl.
    + split; [discriminate | intros [r H]; discriminate].
    + rewrite andb_true_iff, unitEqb_eq, IH. split.
      * intros [-> [r ->]]. now exists r.
      * intros [r H]. injection H as -> ->. split; eauto.
Qed.

Lemma occursAt_O (hay needle : jsString) :
  Spec.occursAt hay needle 0 <-> startsWith hay needle = true.
Proof.
  rewrite startsWith_spec. split.
  - intros (pre & post & -> & Hlen). destruct pre; [|discriminate].
    now exists post.
  - intros [rest ->]. now exists [], rest.
Qed.

Lemma occursAt_S (c : codeUnit) (hay needle : jsString) (k : nat) :
  Spec.occursAt (c :: hay) needle (S k) <-> Spec.occursAt hay needle k.
Proof.
  split.
  - intros (pre & post & H & Hlen). destruct pre as [|d pre]; [discriminate|].
    simpl in H, Hlen. injection H as -> ->. injection Hlen as <-.
    now exists pre, post.
  - intros (pre & post & -> & <-). now exists (c :: pre), post.
Qed.

Lemma occursAt_nil (needle : jsString) (k : nat) :
  Spec.occursAt [] needle k -> k = 0%nat.
Proof.
  intros (pre & post & H & <-). destruct pre; [reflexivity | discriminate].
Qed.

(** [indexOf] returns -1 exactly when the needle occurs nowhere, and the
    least offset of an occurrence otherwise. *)
Lemma indexOfFrom_spec (hay needle : jsString) :
  forall pos : Z,
    (indexOfFrom pos hay needle = (-1)%Z
     /\ forall k, ~ Spec.occursAt hay needle k)
    \/ (exists k : nat,
          indexOfFrom pos hay needle = (pos + Z.of_nat k)%Z
          /\ Spec.occursAt hay needle k
          /\ forall j, Spec.occursAt hay needle j -> (k <= j)%nat)
    \/ (pos < 0)%Z.
Proof.
  induction hay as [|c hay IH]; intros pos.
  - cbn [indexOfFrom]. destruct (startsWith [] needle) eqn:E.
    + right; left. exists 0%nat. split; [lia|]. split.
      * now apply occursAt_O.
      * intros; lia.
    + left. split; [reflexivity|]. intros k Hk.
      pose proof (occursAt_nil _ _ Hk); subst k.
      apply occursAt_O in Hk. congruence.
  - cbn [indexOfFrom]. destruct (startsWith (c :: hay) needle) eqn:E.
    + right; left. exists 0%nat. split; [lia|]. split.
      * now apply occursAt_O.
      * intros; lia.
    + destruct (Z_lt_ge_dec pos 0) as [Hneg|Hpos]; [now right; right|].
      destruct (IH (pos + 1)%Z) as [[H0 Hnone]|[(k & Hk & Hocc & Hmin)|Hbad]];
        [| |lia].
      * left. split; [assumption|]. intros [|k] Hk.
        -- apply occursAt_O in Hk. congruence.
        -- apply occursAt_S in Hk. now apply (Hnone k).
      * right; left. exists (S k). split; [rewrite Hk; lia|]. split.
        -- now apply occursAt_S.
        -- intros [|j] Hj.
           ++ apply occursAt_O in Hj. congruence.
           ++ apply occursAt_S in Hj. apply Hmin in Hj. lia.
Qed.

Lemma indexOf_spec (hay needle : jsString) :
  (indexOf hay needle = (-1)%Z /\ forall k, ~ Spec.occursAt hay needle k)
  \/ (exists k : nat,
        indexOf hay needle = Z.of_nat k
        /\ Spec.occursAt hay needle k
        /\ forall j, Spec.occursAt hay needle j -> (k <= j)%nat).
Proof.
  unfold indexOf.
  destruct (indexOfFrom_spec hay needle 0) as [H|[H|H]];
    [now left | now right | lia].
Qed.

Lemma trimStart_blank (s : jsString) :
  forallb isWhiteSpace s = true -> trimStart s = [].
Proof.
  induction s as [|c s IH]; simpl; [reflexivity|].
  intros H. apply andb_true_iff in H as [Hc Hs]. now rewrite Hc, IH.
Qed.

Lemma trim_blank (s : jsString) :
  forallb isWhiteSpace s = true -> trim s = [].
Proof.
  intros H. unfold trim, trimEnd. now rewrite (trimStart_blank s H).
Qed.

Lemma lowerUnit_length (c : codeUnit) :
  c <> 304 -> List.length (lowerUnit c) = 1%nat.
Proof.
  intros Hc. unfold lowerUnit.
  destruct (inRange 65 90 c); [reflexivity|].
  destruct (inRange 192 222 c && negb (c =? 215)); [reflexivity|].
  destruct (c =? 304) eqn:E; [|reflexivity].
  apply N.eqb_eq in E. contradiction.
Qed.

Lemma lowerUnit_length_ge (c : codeUnit) :
  (1 <= List.length (lowerUnit c))%nat.
Proof.
  unfold lowerUnit.
  destruct (inRange 65 90 c); [simpl; lia|].
  destruct (inRange 192 222 c && negb (c =? 215)); [simpl; lia|].
  destruct (c =? 304); simpl; lia.
Qed.

End Builtins.

(** ** The word segmenter *)

Section Segmenter.

Lemma boundary_eq (c d : codeUnit) : Spec.boundary c d = camelPattern c d.
Proof.
  unfold Spec.boundary, camelPattern, Spec.letter, isLetter,
    Spec.lowercase, Spec.uppercase, Spec.digit, isLower, isUpper, isDigit,
    inRange.
  destruct ((97 <=? c) && (c <=? 122)), ((65 <=? c) && (c <=? 90)),
    ((97 <=? d) && (d <=? 122)), ((65 <=? d) && (d <=? 90));
    reflexivity.
Qed.

Lemma filter_all {A} (f : A -> bool) (l : list A) :
  Forall (fun x => f x = true) l -> filter f l = l.
Proof.
  induction 1 as [|x l Hx _ IH]; simpl; [reflexivity|]. now rewrite Hx, IH.
Qed.

Lemma splitDelimiters_snoc (s : jsString) :
  forall b pending x,
    splitDelimiters b (pending ++ [x]) s
    = match splitDelimiters b pending s with
      | w :: ws => (x :: w) :: ws
      | [] => []
      end.
Proof.
  induction s as [|c s IH]; intros b pending x; simpl.
  - now rewrite rev_app_distr.
  - destruct (isDelimiter c).
    + destruct b; [apply IH|]. now rewrite rev_app_distr.
    + apply (IH false (c :: pending) x).
Qed.

Lemma splitDelimiters_not_nil (s : jsString) :
  forall b pending, splitDelimiters b pending s <> [].
Proof.
  induction s as [|c s IH]; intros b pending; simpl; [discriminate|].
  destruct (isDelimiter c); [destruct b|]; try apply IH; discriminate.
Qed.

(** Splitting on delimiter runs and dropping the empty pieces leaves the
    maximal delimiter-free runs. *)
Lemma splitDelimiters_fragments (s : jsString) :
  forall b, filter nonEmpty (splitDelimiters b [] s) = Spec.fragments s.
Proof.
  induction s as [|c s IH]; intros b; [reflexivity|].
  cbn [splitDelimiters Spec.fragments].
  change (Spec.delimiter c) with (isDelimiter c).
  destruct (isDelimiter c) eqn:Hc.
  - destruct b; cbn [filter nonEmpty rev]; apply IH.
  - change [c] with ([] ++ [c]). rewrite splitDelimiters_snoc.
    rewrite <- (IH false).
    destruct s as [|d s]; [reflexivity|].
    cbn [splitDelimiters]. change (Spec.delimiter d) with (isDelimiter d).
    destruct (isDelimiter d) eqn:Hd.
    + cbn [rev filter nonEmpty].
      now destruct (filter nonEmpty (splitDelimiters true [] s)).
    + change [d] with ([] ++ [d]). rewrite splitDelimiters_snoc.
      destruct (splitDelimiters false [] s) as [|w ws] eqn:E.
      * now apply splitDelimiters_not_nil in E.
      * reflexivity.
Qed.

Lemma fragments_nonEmpty (s : jsString) :
  Forall (fun f => nonEmpty f = true) (Spec.fragments s).
Proof.
  induction s as [|c s IH]; simpl; [constructor|].
  destruct (Spec.delimiter c); [assumption|].
  destruct (Spec.fragments s) as [|f fs]; [repeat constructor|].
  destruct s as [|d s]; [repeat constructor|].
  inversion IH; subst.
  destruct (Spec.delimiter d); repeat constructor; assumption.
Qed.

Lemma splitCamelFrom_snoc (s : jsString) :
  forall prev pending x,
    splitCamelFrom prev (pending ++ [x]) s
    = match splitCamelFrom prev pending s with
      | w :: ws => (x :: w) :: ws
      | [] => []
      end.
Proof.
  induction s as [|c s IH]; intros prev pending x; simpl.
  - now rewrite rev_app_distr.
  - destruct (camelPattern prev c).
    + now rewrite rev_app_distr.
    + apply (IH c (c :: pending) x).
Qed.

Lemma splitCamelFrom_not_nil (s : jsString) :
  forall prev pending, splitCamelFrom prev pending s <> [].
Proof.
  induction s as [|c s IH]; intros prev pending; simpl; [discriminate|].
  destruct (camelPattern prev c); [discriminate | apply IH].
Qed.

(** The zero-width split cuts a segment at its boundaries and nowhere
    else. *)
Lemma splitCamelFrom_cut (s : jsString) :
  forall c, splitCamelFrom c [c] s = Spec.cutAtBoundaries (c :: s).
Proof.
  induction s as [|d s IH]; intros c; [reflexivity|].
  cbn [splitCamelFrom].
  change (Spec.cutAtBoundaries (c :: d :: s))
    with (match Spec.cutAtBoundaries (d :: s) with
          | w :: ws => if Spec.boundary c d then [c] :: w :: ws else (c :: w) :: ws
          | [] => [[c]]
          end).
  rewrite <- IH, boundary_eq.
  destruct (camelPattern c d).
  - destruct (splitCamelFrom d [d] s) eqn:E; [|reflexivity].
    now apply splitCamelFrom_not_nil in E.
  - change [d; c] with ([d] ++ [c]). rewrite splitCamelFrom_snoc.
    destruct (splitCamelFrom d [d] s) eqn:E; [|reflexivity].
    now apply splitCamelFrom_not_nil in E.
Qed.

Lemma cutAtBoundaries_nonEmpty (s : jsString) :
  Forall (fun w => nonEmpty w = true) (Spec.cutAtBoundaries s).
Proof.
  induction s as [|c s IH]; simpl; [constructor|].
  destruct (Spec.cutAtBoundaries s) as [|w ws]; [repeat constructor|].
  destruct s as [|d s]; [repeat constructor|].
  inversion IH; subst.
  destruct (Spec.boundary c d); repeat constructor; assumption.
Qed.

Lemma splitCamel_cut (segment : jsString) :
  nonEmpty segment = true ->
  filter nonEmpty (splitCamel segment) = Spec.cutAtBoundaries segment.
Proof.
  destruct segment as [|c s]; [discriminate|]. intros _.
  unfold splitCamel. rewrite splitCamelFrom_cut.
  apply filter_all, cutAtBoundaries_nonEmpty.
Qed.

Lemma flat_map_splitCamel (segments : list jsString) :
  Forall (fun f => nonEmpty f = true) segments ->
  flat_map (fun segment => filter nonEmpty (splitCamel segment)) segments
  = flat_map Spec.cutAtBoundaries segments.
Proof.
  induction 1 as [|f fs Hf _ IH]; simpl; [reflexivity|].
  now rewrite IH, splitCamel_cut.
Qed.

(** [split('.')], [pop()] and [join('.')] cut the text at its last dot. *)
Lemma split_lastDot (s : jsString) :
  match Spec.splitLastDot s with
  | None => split 46 s = [s]
  | Some (stem, ext) =>
      exists ps, ps <> [] /\ split 46 s = ps ++ [ext] /\ join [46] ps = stem
  end.
Proof.
  induction s as [|c s IH]; [reflexivity|].
  cbn [Spec.splitLastDot split]. unfold unitEqb.
  destruct (Spec.splitLastDot s) as [[stem ext]|].
  - destruct IH as (ps & Hne & Hsplit & Hjoin).
    destruct ps as [|p ps]; [contradiction|].
    destruct (c =? 46) eqn:Hc.
    + apply N.eqb_eq in Hc; subst c.
      exists ([] :: p :: ps). split; [discriminate|]. split.
      * now rewrite Hsplit.
      * now rewrite <- Hjoin.
    + rewrite Hsplit. cbn [app].
      exists ((c :: p) :: ps). split; [discriminate|]. split; [reflexivity|].
      rewrite <- Hjoin. now destruct ps.
  - rewrite IH. destruct (c =? 46) eqn:Hc; [|reflexivity].
    exists [[]]. split; [discriminate|]. now split.
Qed.

Lemma extractWords_segment (text : jsString) :
  extractWords text = Spec.segment text.
Proof.
  destruct text as [|c0 text0]; [reflexivity|].
  unfold extractWords, Spec.segment.
  change (negb (nonEmpty (c0 :: text0))) with false. cbv iota.
  generalize (split_lastDot (c0 :: text0)).
  generalize (c0 :: text0) as text. intros text Hsplit.
  assert (Hfinal : forall stem ext,
    filter (fun word => (0 <? JS.length word)%Z)
      (if nonEmpty ext
       then flat_map (fun segment => filter nonEmpty (splitCamel segment))
              (filter nonEmpty (splitDelimiters false [] stem)) ++ [ext]
       else flat_map (fun segment => filter nonEmpty (splitCamel segment))
              (filter nonEmpty (splitDelimiters false [] stem)))
    = filter (fun w => negb (Spec.isZeroLength w))
        (if Spec.isZeroLength ext
         then flat_map Spec.cutAtBoundaries (Spec.fragments stem)
         else flat_map Spec.cutAtBoundaries (Spec.fragments stem) ++ [ext])).
  { intros stem ext.
    rewrite splitDelimiters_fragments,
      (flat_map_splitCamel _ (fragments_nonEmpty stem)).
    destruct ext; cbn [nonEmpty Spec.isZeroLength];
      apply filter_ext; now intros []. }
  destruct (Spec.splitLastDot text) as [[stem ext]|].
  - destruct Hsplit as (ps & Hne & -> & Hjoin).
    assert (Hlen : (1 <? List.length (ps ++ [ext]))%nat = true).
    { apply Nat.ltb_lt. rewrite length_app. simpl.
      destruct ps; [contradiction | simpl; lia]. }
    rewrite Hlen, last_last, removelast_last, Hjoin. apply Hfinal.
  - rewrite Hsplit. cbn [List.length Nat.ltb Nat.leb join]. apply Hfinal.
Qed.

Lemma extractWords_nonEmpty (text : jsString) :
  Forall (fun w => nonEmpty w = true) (extractWords text).
Proof.
  unfold extractWords. destruct (negb (nonEmpty text)); [constructor|].
  apply Forall_forall. intros w Hw. apply filter_In in Hw as [_ Hw].
  now destruct w.
Qed.

End Segmenter.

(** ** The initials index *)

Section Index.

Lemma mapM_firstLower (words : list jsString) :
  Forall (fun w => nonEmpty w = true) words ->
  mapM firstLower words
  = Return (map (fun w => toLowerCase (firstn 1 w)) words).
Proof.
  induction 1 as [|w ws Hw _ IH]; [reflexivity|].
  destruct w as [|c w]; [discriminate|].
  cbn [mapM firstLower bind]. now rewrite IH.
Qed.

Lemma createSearchableString_buildIndex (words : list jsString) :
  Forall (fun w => nonEmpty w = true) words ->
  createSearchableString words = Return (Spec.buildIndex words).
Proof.
  intros H. unfold createSearchableString. now rewrite mapM_firstLower.
Qed.

Lemma createSearchableString_extractWords (text : jsString) :
  createSearchableString (extractWords text)
  = Return (Spec.buildIndex (extractWords text)).
Proof.
  apply createSearchableString_buildIndex, extractWords_nonEmpty.
Qed.

Lemma buildIndex_cons (c : codeUnit) (w : jsString) (ws : list jsString) :
  Spec.buildIndex ((c :: w) :: ws) = lowerUnit c ++ Spec.buildIndex ws.
Proof. unfold Spec.buildIndex. simpl. now rewrite app_nil_r. Qed.

(** One unit per word, unless a word starts with U+0130. *)
Lemma buildIndex_length (words : list jsString) :
  Forall (fun w => nonEmpty w = true /\ hd 0 w <> 304) words ->
  List.length (Spec.buildIndex words) = List.length words.
Proof.
  induction 1 as [|w ws [Hw Hc] _ IH]; [reflexivity|].
  destruct w as [|c w]; [discriminate|].
  rewrite buildIndex_cons, length_app, IH, lowerUnit_length by exact Hc.
  reflexivity.
Qed.

Lemma buildIndex_length_ge (words : list jsString) :
  Forall (fun w => nonEmpty w = true) words ->
  (List.length words <= List.length (Spec.buildIndex words))%nat.
Proof.
  induction 1 as [|w ws Hw _ IH]; [simpl; lia|].
  destruct w as [|c w]; [discriminate|].
  rewrite buildIndex_cons, length_app.
  pose proof (lowerUnit_length_ge c). simpl List.length. lia.
Qed.

End Index.

(** ** The score *)

Section Score.

Lemma calculateScore_model (this : t) (index : jsString) (matchIndex : Z)
    (text : jsString) (isBasename : bool) :
  (calculateScore this index matchIndex text isBasename
   == Spec.score matchIndex (JS.length (query this)) (JS.length index)
        (JS.length text) isBasename
        (endsWith (toLowerCase text) (str ".md")))%Q.
Proof.
  unfold calculateScore, Spec.score.
  set (density := (inject_Z (JS.length (query this))
                   / inject_Z (Z.max (JS.length index) 1))%Q).
  set (penalty := inject_Z (Z.max 0 (JS.length text - 15))).
  apply Q.max_compat; [reflexivity|].
  destruct (matchIndex =? 0)%Z, (1 <? JS.length (query this))%Z, isBasename,
    (JS.length (query this) =? JS.length index)%Z,
    (endsWith (toLowerCase text) (str ".md")); ring.
Qed.

Lemma calculateScore_floor (this : t) (index : jsString) (matchIndex : Z)
    (text : jsString) (isBasename : bool) :
  (0.1 <= calculateScore this index matchIndex text isBasename)%Q.
Proof. unfold calculateScore. apply Q.le_max_l. Qed.

End Score.

(** ** The highlight loop *)

Section Highlight.

Lemma skipn_cons_S {A} (l : list A) :
  forall i x rest, skipn i l = x :: rest -> skipn (S i) l = rest.
Proof.
  induction l as [|a l IH]; intros i x rest H.
  - destruct i; discriminate.
  - destruct i; simpl in H.
    + now injection H as _ ->.
    + apply (IH i x rest H).
Qed.

Lemma runningOffset_S (words : list jsString) :
  forall i w rest,
    skipn i words = w :: rest ->
    Spec.runningOffset words (S i)
    = (Spec.runningOffset words i + JS.length w + 1)%Z.
Proof.
  unfold Spec.runningOffset.
  induction words as [|a words IH]; intros i w rest H.
  - destruct i; discriminate.
  - destruct i; simpl in H.
    + injection H as -> ->. simpl. lia.
    + specialize (IH i w rest H).
      change (firstn (S (S i)) (a :: words)) with (a :: firstn (S i) words).
      change (firstn (S i) (a :: words)) with (a :: firstn i words).
      cbn [fold_right]. rewrite IH. lia.
Qed.

Lemma filter_seq_below (n : nat) :
  forall q m,
    filter (fun i => (i <? n)%nat) (seq m q)
    = seq m (Nat.min (m + q) n - m).
Proof.
  induction q as [|q IH]; intros m.
  - replace (Nat.min (m + 0) n - m)%nat with 0%nat by lia. reflexivity.
  - cbn [seq filter]. rewrite IH.
    destruct (Nat.ltb_spec m n) as [Hlt|Hge].
    + replace (Nat.min (m + S q) n - m)%nat
        with (S (Nat.min (S m + q) n - S m)) by lia.
      reflexivity.
    + replace (Nat.min (S m + q) n - S m)%nat with 0%nat by lia.
      replace (Nat.min (m + S q) n - m)%nat with 0%nat by lia.
      reflexivity.
Qed.

Lemma spans_seq (words : list jsString) (m q : nat) :
  Spec.spans words m q
  = map (spanOf words)
      (seq m (Nat.min (m + q) (List.length words) - m)).
Proof. unfold Spec.spans. now rewrite filter_seq_below. Qed.

(** The loop from iteration [i] on appends the spans of the words whose
    index lies in the matched range and has not been passed yet. *)
Lemma highlightLoop_matches (this : t) (words : list jsString) (m : nat) :
  forall rest i st,
    skipn i words = rest ->
    queryIndex st
    = (Z.min (Z.of_nat i) (Z.of_nat m + JS.length (query this))
       - Z.min (Z.of_nat i) (Z.of_nat m))%Z ->
    (rest <> [] -> charIndex st = Spec.runningOffset words i) ->
    matches
      (highlightLoop this (Z.of_nat (List.length words)) (Z.of_nat m) rest
         (Z.of_nat i) st)
    = matches st
      ++ map (spanOf words)
           (seq (Nat.max i m)
              (Nat.min (m + List.length (query this)) (List.length words)
               - Nat.max i m)).
Proof.
  unfold JS.length.
  set (q := List.length (query this)). set (n := List.length words).
  induction rest as [|w rest IH]; intros i st Hskip Hqi Hci.
  - assert (n <= i)%nat.
    { pose proof (length_skipn i words) as L. rewrite Hskip in L.
      simpl in L. fold n in L. lia. }
    replace (Nat.min (m + q) n - Nat.max i m)%nat with 0%nat by lia.
    simpl. now rewrite app_nil_r.
  - assert (Hlen : (n - i = S (List.length rest))%nat).
    { pose proof (length_skipn i words) as L. rewrite Hskip in L.
      simpl in L. fold n in L. lia. }
    pose proof (skipn_cons_S _ _ _ _ Hskip) as Hskip'.
    pose proof (runningOffset_S _ _ _ _ Hskip) as Hoff.
    unfold JS.length in Hoff.
    specialize (Hci ltac:(discriminate)).
    cbn [highlightLoop]. unfold JS.length. fold q.
    destruct (Z.ltb_spec (queryIndex st) (Z.of_nat q)) as [Hq|Hq].
    + replace (Z.of_nat i + 1)%Z with (Z.of_nat (S i)) by lia.
      destruct ((Z.of_nat m <=? Z.of_nat i)%Z
                && (Z.of_nat i <? Z.of_nat m + Z.of_nat q)%Z) eqn:Hin.
      * apply andb_true_iff in Hin as [H1 H2].
        apply Z.leb_le in H1. apply Z.ltb_lt in H2.
        replace (Nat.max i m) with i by lia.
        replace (Nat.min (m + q) n - i)%nat
          with (S (Nat.min (m + q) n - Nat.max (S i) m)) by lia.
        replace (Nat.max (S i) m) with (S i) by lia.
        cbn [seq map]. unfold spanOf at 1. rewrite <- Hci.
        destruct (Z.ltb_spec (Z.of_nat i) (Z.of_nat n - 1)) as [Hb|Hb];
          cbn [charIndex queryIndex matches];
          (rewrite IH;
           [ cbn [matches]; rewrite <- app_assoc;
             replace (Nat.max (S i) m) with (S i) by lia; reflexivity
           | assumption
           | cbn [queryIndex]; lia
           | intros Hne; cbn [charIndex];
             destruct rest; [contradiction | simpl in Hlen; lia] ]).
      * assert (i < m)%nat.
        { apply andb_false_iff in Hin as [H1|H1];
            [apply Z.leb_gt in H1 | apply Z.ltb_ge in H1]; lia. }
        replace (Nat.max i m) with (Nat.max (S i) m) by lia.
        destruct (Z.ltb_spec (Z.of_nat i) (Z.of_nat n - 1)) as [Hb|Hb];
          cbn [charIndex queryIndex matches];
          (rewrite IH;
           [ reflexivity
           | assumption
           | cbn [queryIndex]; lia
           | intros Hne; cbn [charIndex];
             destruct rest; [contradiction | simpl in Hlen; lia] ]).
    + replace (Nat.min (m + q) n - Nat.max i m)%nat with 0%nat by lia.
      simpl. now rewrite app_nil_r.
Qed.

End Highlight.

(** ** [searchText] *)

Section Search.

Variable this : t.

Lemma searchText_unfold (text : jsString) (isBasename : bool) :
  nonEmpty (query this) = true ->
  nonEmpty text = true ->
  searchText this (Some text) isBasename
  = let words := extractWords text in
    let index := Spec.buildIndex words in
    let matchIndex := indexOf index (query this) in
    if (matchIndex =? -1)%Z then Return noMatch
    else
      let score := calculateScore this index matchIndex text isBasename in
      Return
        (AcronymSearchResult.mk
           (Some
              (SearchResult.mk score
                 (matches
                    (highlightLoop this (Z.of_nat (List.length words))
                       matchIndex words 0 (mkLoop 0 0 [])))))
           score).
Proof.
  intros Hq Ht. unfold searchText. rewrite Hq.
  destruct text; [discriminate|]. cbn [truthy negb orb]. cbv zeta.
  now rewrite createSearchableString_extractWords.
Qed.

Lemma searchText_inert :
  nonEmpty (query this) = false ->
  forall text isBasename, searchText this text isBasename = Return noMatch.
Proof.
  intros Hq text b. unfold searchText. now rewrite Hq.
Qed.

Lemma searchText_falsy (text : option jsString) (isBasename : bool) :
  truthy text = false -> searchText this text isBasename = Return noMatch.
Proof.
  intros Ht. unfold searchText. now rewrite Ht, orb_true_r.
Qed.

Lemma matchIndexOf_indexOf (text : jsString) :
  matchIndexOf this text
  = Return (indexOf (Spec.buildIndex (extractWords text)) (query this)).
Proof.
  unfold matchIndexOf. now rewrite createSearchableString_extractWords.
Qed.

(** What [searchText] returns for a usable query and a non-empty text. *)
Lemma searchText_spec (text : jsString) (isBasename : bool) :
  nonEmpty (query this) = true ->
  nonEmpty text = true ->
  let words := extractWords text in
  let index := Spec.buildIndex words in
  (searchText this (Some text) isBasename = Return noMatch
   /\ indexOf index (query this) = (-1)%Z
   /\ forall k, ~ Spec.occursAt index (query this) k)
  \/ (exists k : nat,
        indexOf index (query this) = Z.of_nat k
        /\ Spec.occursAt index (query this) k
        /\ (forall j, Spec.occursAt index (query this) j -> (k <= j)%nat)
        /\ searchText this (Some text) isBasename
           = Return
               (AcronymSearchResult.mk
                  (Some
                     (SearchResult.mk
                        (calculateScore this index (Z.of_nat k) text isBasename)
                        (Spec.spans words k (List.length (query this)))))
                  (calculateScore this index (Z.of_nat k) text isBasename))).
Proof.
  intros Hq Ht words index.
  rewrite (searchText_unfold text isBasename Hq Ht). cbv zeta.
  fold words. fold index.
  destruct (indexOf_spec index (query this))
    as [[Hidx Hnone]|(k & Hidx & Hocc & Hmin)]; rewrite Hidx.
  - left. now repeat split.
  - right. exists k. repeat split; try assumption.
    destruct (Z.eqb_spec (Z.of_nat k) (-1)) as [Hk|_]; [lia|].
    rewrite spans_seq.
    pose proof (highlightLoop_matches this words k words 0%nat
                  (mkLoop 0 0 []) eq_refl) as Hloop.
    change (Z.of_nat 0) with 0%Z in Hloop.
    rewrite Hloop;
      [reflexivity | cbn [queryIndex]; unfold JS.length; lia
      | intros _; reflexivity].
Qed.

(** [searchText] always returns, and an unmatched result is [noMatch]. *)
Lemma searchText_returns (text : option jsString) (isBasename : bool) :
  exists r,
    searchText this text isBasename = Return r
    /\ (matched r = false -> r = noMatch)
    /\ scoresAgree r
    /\ (matched r = true -> (0.1 <= AcronymSearchResult.score r)%Q).
Proof.
  destruct (nonEmpty (query this)) eqn:Hq.
  - destruct (truthy text) eqn:Ht.
    + destruct text as [[|c text]|]; try discriminate.
      destruct (searchText_spec (c :: text) isBasename Hq eq_refl)
        as [(H & _)|(k & _ & _ & _ & H)]; rewrite H; eexists;
        (split; [reflexivity|]); cbn; repeat split;
        try discriminate; try reflexivity.
      intros _. apply calculateScore_floor.
    + rewrite (searchText_falsy text isBasename Ht). exists noMatch.
      repeat split; discriminate.
  - rewrite (searchText_inert Hq). exists noMatch.
    repeat split; discriminate.
Qed.

Lemma searchWithFallback_returns (primaryText : option jsString)
    (pathSegments : option PathSegments.t) :
  exists r,
    searchWithFallback this primaryText pathSegments = Return r
    /\ (matched r = false -> r = noMatch)
    /\ scoresAgree r
    /\ (matched r = true -> (0.1 <= AcronymSearchResult.score r)%Q).
Proof.
  unfold searchWithFallback.
  destruct (searchText_returns primaryText true) as (r1 & -> & H1).
  unfold bind at 1.
  destruct pathSegments as [segs|];
    [|exists r1; split; [reflexivity | exact H1]].
  case_eq (matched r1); intros M1; cbn [negb];
    [exists r1; split; [reflexivity | exact H1]|].
  destruct (searchText_returns (PathSegments.basename segs) true)
    as (r2 & -> & H2).
  unfold bind.
  case_eq (matched r2); intros M2; cbn [negb];
    [exists r2; split; [reflexivity | exact H2]|].
  apply searchText_returns.
Qed.

End Search.

(** ** Supporting facts for the claims *)

Section Support.

Lemma cutAtBoundaries_concat (fragment : jsString) :
  concat (Spec.cutAtBoundaries fragment) = fragment.
Proof.
  induction fragment as [|c s IH]; [reflexivity|].
  cbn [Spec.cutAtBoundaries].
  destruct (Spec.cutAtBoundaries s) as [|w ws] eqn:E.
  - simpl in IH. now subst s.
  - destruct s as [|d s]; [discriminate E|].
    destruct (Spec.boundary c d); simpl in *; now rewrite IH.
Qed.

Lemma Qmax_floor_lt (a x y : Q) :
  (x < y)%Q ->
  (Qmax a x <= Qmax a y)%Q /\ ((a < Qmax a y)%Q -> (Qmax a x < Qmax a y)%Q).
Proof.
  intros H.
  destruct (Q.max_spec a x) as [[H1 E1]|[H1 E1]],
    (Q.max_spec a y) as [[H2 E2]|[H2 E2]];
    rewrite E1, E2; split; intros; lra.
Qed.

Lemma spans_length (words : list jsString) (k q : nat) :
  (k + q <= List.length words)%nat ->
  List.length (Spec.spans words k q) = q.
Proof.
  intros H. rewrite spans_seq, length_map, length_seq. lia.
Qed.

Lemma occursAt_length (index query : jsString) (k : nat) :
  Spec.occursAt index query k ->
  (k + List.length query <= List.length index)%nat.
Proof.
  intros (pre & post & -> & <-). rewrite !length_app. lia.
Qed.

(** The substring locator inside [searchText]: a Match exactly when the
    query occurs in the initials index, at the least offset. *)
Lemma searchText_locates (this : t) (text : jsString) (isBasename : bool) :
  nonEmpty (query this) = true ->
  nonEmpty text = true ->
  let index := Spec.buildIndex (extractWords text) in
  exists r matchIndex,
    searchText this (Some text) isBasename = Return r
    /\ matchIndexOf this text = Return matchIndex
    /\ (matched r = true <-> exists k, Spec.occursAt index (query this) k)
    /\ (matchIndex = (-1)%Z <-> r = noMatch)
    /\ (matched r = true ->
        exists k : nat,
          matchIndex = Z.of_nat k
          /\ Spec.occursAt index (query this) k
          /\ forall j, Spec.occursAt index (query this) j -> (k <= j)%nat).
Proof.
  intros Hq Ht. cbv zeta. rewrite matchIndexOf_indexOf.
  destruct (searchText_spec this text isBasename Hq Ht)
    as [(H & Hidx & Hnone)|(k & Hidx & Hocc & Hmin & H)];
    rewrite H; eexists; eexists;
    (split; [reflexivity|]); (split; [reflexivity|]); rewrite Hidx.
  - split; [|split].
    + split; [discriminate|]. intros [k Hk]. now apply Hnone in Hk.
    + split; reflexivity.
    + discriminate.
  - split; [|split].
    + split; [now exists k | reflexivity].
    + split; [lia | discriminate].
    + intros _. now exists k.
Qed.

(** *** Index offsets and word indices *)

Lemma buildIndex_app (l1 l2 : list jsString) :
  Spec.buildIndex (l1 ++ l2) = Spec.buildIndex l1 ++ Spec.buildIndex l2.
Proof. unfold Spec.buildIndex. now rewrite map_app, concat_app. Qed.

Lemma app_eq_length {A} (a : list A) :
  forall b c d,
    a ++ b = c ++ d -> List.length a = List.length c -> a = c /\ b = d.
Proof.
  induction a as [|x a IH]; intros b [|y c] d H L; try discriminate L.
  - now split.
  - simpl in H, L. injection H as -> H. injection L as L.
    destruct (IH b c d H L) as [-> ->]. now split.
Qed.

(** When no word starts with U+0130, the query occurs at offset [k] of
    the index exactly when it spells the initials of the [|query|] words
    from word [k] on. *)
Lemma occursAt_word_run (words : list jsString) (query : jsString) (k : nat) :
  Forall (fun w => nonEmpty w = true /\ hd 0 w <> 304) words ->
  Spec.occursAt (Spec.buildIndex words) query k
  <-> (k + List.length query <= List.length words)%nat
      /\ Spec.buildIndex (firstn (List.length query) (skipn k words)) = query.
Proof.
  intros Hal.
  set (q := List.length query).
  assert (Hsplit : words
                   = firstn k words
                     ++ firstn q (skipn k words) ++ skipn q (skipn k words))
    by now rewrite !firstn_skipn.
  assert (Hparts : Forall (fun w => nonEmpty w = true /\ hd 0 w <> 304)
                     (firstn k words)
                   /\ Forall (fun w => nonEmpty w = true /\ hd 0 w <> 304)
                        (firstn q (skipn k words))).
  { rewrite Hsplit in Hal. apply Forall_app in Hal as [H1 H2].
    apply Forall_app in H2 as [H2 _]. now split. }
  destruct Hparts as [Hal1 Hal2].
  pose proof (buildIndex_length _ Hal) as Lw.
  pose proof (buildIndex_length _ Hal1) as L1.
  pose proof (buildIndex_length _ Hal2) as L2.
  rewrite length_firstn in L1. rewrite length_firstn, length_skipn in L2.
  assert (Hidx : Spec.buildIndex words
                 = Spec.buildIndex (firstn k words)
                   ++ Spec.buildIndex (firstn q (skipn k words))
                   ++ Spec.buildIndex (skipn q (skipn k words)))
    by now rewrite <- !buildIndex_app, <- Hsplit.
  split.
  - intros Hocc. pose proof (occursAt_length _ _ _ Hocc) as Hle.
    rewrite Lw in Hle. fold q in Hle. split; [assumption|].
    destruct Hocc as (pre & post & E & Lpre). rewrite Hidx in E.
    apply app_eq_length in E as [_ E]; [|lia].
    apply app_eq_length in E as [E _]; [assumption | fold q; lia].
  - intros [Hle E]. exists (Spec.buildIndex (firstn k words)).
    exists (Spec.buildIndex (skipn q (skipn k words))).
    split; [now rewrite Hidx, E | lia].
Qed.

(** *** Texts without U+0130 *)

Lemma splitLastDot_app (text stem ext : jsString) :
  Spec.splitLastDot text = Some (stem, ext) -> text = stem ++ 46 :: ext.
Proof.
  revert stem ext. induction text as [|c s IH]; intros stem ext H;
    [discriminate|].
  cbn [Spec.splitLastDot] in H.
  destruct (Spec.splitLastDot s) as [[stem' ext']|].
  - injection H as <- <-. now rewrite (IH stem' ext' eq_refl).
  - destruct (c =? 46) eqn:Hc; [|discriminate].
    apply N.eqb_eq in Hc. now injection H as <- <-; subst c.
Qed.

Lemma fragments_units (s : jsString) (x : codeUnit) :
  In x (concat (Spec.fragments s)) -> In x s.
Proof.
  induction s as [|c s IH]; [now simpl|].
  cbn [Spec.fragments]. destruct (Spec.delimiter c); [now right; apply IH|].
  destruct (Spec.fragments s) as [|f fs].
  - simpl. tauto.
  - destruct s as [|d s]; [simpl; tauto|].
    destruct (Spec.delimiter d); simpl in *; intros [H|H]; tauto.
Qed.

Lemma cutAll_concat (fs : list jsString) :
  concat (flat_map Spec.cutAtBoundaries fs) = concat fs.
Proof.
  induction fs as [|f fs IH]; [reflexivity|].
  cbn [flat_map]. now rewrite concat_app, cutAtBoundaries_concat, IH.
Qed.

(** Every unit of a word is a unit of the text. *)
Lemma extractWords_units (text w : jsString) (x : codeUnit) :
  In w (extractWords text) -> In x w -> In x text.
Proof.
  rewrite extractWords_segment. destruct text as [|c0 text0]; [now simpl|].
  unfold Spec.segment. generalize (c0 :: text0) as text. intros text.
  pose proof (splitLastDot_app text) as Hdot.
  destruct (Spec.splitLastDot text) as [[stem ext]|].
  - specialize (Hdot stem ext eq_refl). subst text.
    intros Hw Hx. apply filter_In in Hw as [Hw _].
    assert (Hin : In w (flat_map Spec.cutAtBoundaries (Spec.fragments stem))
                  \/ w = ext).
    { destruct (Spec.isZeroLength ext); [now left|].
      apply in_app_or in Hw as [Hw|[Hw|[]]]; [now left | now right]. }
    apply in_or_app. destruct Hin as [Hin| ->]; [left | right; now right].
    apply fragments_units. rewrite <- cutAll_concat.
    apply in_concat. now exists w.
  - intros Hw Hx. cbn [Spec.isZeroLength] in Hw.
    apply filter_In in Hw as [Hw _].
    apply fragments_units. rewrite <- cutAll_concat.
    apply in_concat. now exists w.
Qed.

Lemma extractWords_aligned (text : jsString) :
  ~ In 304 text ->
  Forall (fun w => nonEmpty w = true /\ hd 0 w <> 304) (extractWords text).
Proof.
  intros Hfree. apply Forall_forall. intros w Hw.
  pose proof (extractWords_nonEmpty text) as Hne.
  rewrite Forall_forall in Hne. split; [now apply Hne|].
  destruct w as [|c w]; [now apply Hne in Hw|].
  cbn [hd]. intros ->. apply Hfree.
  apply (extractWords_units text (304 :: w) 304 Hw). now left.
Qed.

(** On a text without U+0130 the index has one unit per word. *)
Lemma buildIndex_extractWords_length (text : jsString) :
  ~ In 304 text ->
  List.length (Spec.buildIndex (extractWords text))
  = List.length (extractWords text).
Proof. intros H. now apply buildIndex_length, extractWords_aligned. Qed.

(** The span mapper inside [searchText]: the spans of a Match are those of
    the words whose index lies in the matched range; there is one per unit
    of the query when the index has one unit per word. *)
Lemma searchText_spans (this : t) (text : jsString) (isBasename : bool)
    (r : AcronymSearchResult.t) (m : SearchResult.t) :
  searchText this (Some text) isBasename = Return r ->
  AcronymSearchResult.match_ r = Some m ->
  let words := extractWords text in
  exists k : nat,
    matchIndexOf this text = Return (Z.of_nat k)
    /\ SearchResult.matches m = Spec.spans words k (List.length (query this))
    /\ (List.length (Spec.buildIndex words) = List.length words ->
        List.length (SearchResult.matches m) = List.length (query this)
        /\ SearchResult.matches m <> []).
Proof.
  intros Hr Hm. cbv zeta.
  destruct (nonEmpty (query this)) eqn:Hq;
    [|rewrite (searchText_inert this Hq) in Hr; injection Hr as <-;
      discriminate].
  destruct (nonEmpty text) eqn:Ht;
    [|rewrite searchText_falsy in Hr by (now destruct text);
      injection Hr as <-; discriminate].
  rewrite matchIndexOf_indexOf.
  destruct (searchText_spec this text isBasename Hq Ht)
    as [(H & _)|(k & Hidx & Hocc & _ & H)]; rewrite H in Hr;
    injection Hr as <-; [discriminate|].
  injection Hm as <-.
  exists k. rewrite Hidx. split; [reflexivity|]. split; [reflexivity|].
  intros Hlen. cbn [SearchResult.matches].
  apply occursAt_length in Hocc. rewrite Hlen in Hocc.
  rewrite spans_length by assumption. split; [reflexivity|].
  intros E. apply (f_equal (@List.length _)) in E.
  rewrite spans_length in E by assumption.
  destruct (query this); [discriminate Hq | discriminate E].
Qed.

(** On a text without U+0130 the search is the acronym match of the
    glossary: a Match exactly when the query spells the initials of a
    contiguous run of words, [matchIndex] is the index of the first word of
    the leftmost such run, and every word of the run gets its span. *)
Lemma searchText_acronym_match (this : t) (text : jsString)
    (isBasename : bool) :
  nonEmpty (query this) = true ->
  nonEmpty text = true ->
  ~ In 304 text ->
  let words := extractWords text in
  let run k := Spec.buildIndex (firstn (List.length (query this)) (skipn k words)) in
  let isRun k :=
    (k + List.length (query this) <= List.length words)%nat
    /\ run k = query this in
  exists r,
    searchText this (Some text) isBasename = Return r
    /\ (matched r = true <-> exists k, isRun k)
    /\ (matched r = true ->
        exists (k : nat) (m : SearchResult.t),
          matchIndexOf this text = Return (Z.of_nat k)
          /\ isRun k
          /\ (forall j, isRun j -> (k <= j)%nat)
          /\ AcronymSearchResult.match_ r = Some m
          /\ SearchResult.matches m
             = map (spanOf words) (seq k (List.length (query this)))
          /\ SearchResult.matches m <> []).
Proof.
  intros Hq Ht Hfree. cbv zeta.
  pose proof (extractWords_aligned text Hfree) as Hal.
  destruct (searchText_locates this text isBasename Hq Ht)
    as (r & mi & Hr & Hmi & Hiff & _ & Hleast).
  exists r. split; [assumption|]. split.
  - rewrite Hiff. split; intros [k Hk]; exists k;
      now apply (occursAt_word_run _ _ _ Hal).
  - intros Hm. destruct (Hleast Hm) as (k & -> & Hocc & Hmin).
    destruct (AcronymSearchResult.match_ r) as [m|] eqn:Em;
      [|unfold matched in Hm; rewrite Em in Hm; discriminate].
    destruct (searchText_spans this text isBasename r m Hr Em)
      as (k' & Hmi' & Hspans & Hlen).
    rewrite Hmi in Hmi'. injection Hmi' as Hk. apply Nat2Z.inj in Hk. subst k'.
    exists k, m. split; [assumption|].
    pose proof (proj1 (occursAt_word_run _ _ _ Hal) Hocc) as Hrun.
    split; [assumption|]. split.
    { intros j Hj. apply Hmin. now apply (occursAt_word_run _ _ _ Hal). }
    split; [reflexivity|]. split.
    + rewrite Hspans, spans_seq. f_equal. f_equal.
      destruct Hrun as [Hle _]. lia.
    + now apply Hlen, buildIndex_length.
Qed.

End Support.

(** ** The claims *)

(** C1.  The claim: a Match exactly when the query is a contiguous
    substring of the initials index, with [matchIndex] the word index of
    the first matched word.  [searchText_locates] proves the substring
    part for every input, with [matchIndex] the least offset in the index,
    and [searchText_acronym_match] proves the whole claim for texts
    without U+0130.  This theorem evaluates the query ["m"] on ["İ.md"]:
    the text has the two words ["İ"] and ["md"], the index is the three
    units [i, U+0307, m], the search is a Match and [matchIndex] is 2,
    although the matched word ["md"] is word 1 and there is no word 2. *)
Theorem C1_dotted_I_offset_is_not_word_index :
  let this := new (Some (str "m")) in
  extractWords dottedCapitalI_md = [[304]; str "md"]
  /\ createSearchableString (extractWords dottedCapitalI_md)
     = Return [105; 775; 109]
  /\ matchIndexOf this dottedCapitalI_md = Return 2%Z
  /\ (exists r,
        searchText this (Some dottedCapitalI_md) false = Return r
        /\ matched r = true)
  /\ nth_error (extractWords dottedCapitalI_md) 1 = Some (str "md")
  /\ nth_error (extractWords dottedCapitalI_md) 2 = None.
Proof.
  cbv zeta. repeat split; try (vm_compute; reflexivity).
  eexists. split; vm_compute; reflexivity.
Qed.

(** C2.  [extractWords] computes the segmentation of section 4.1: the
    extension is cut at the last dot, the stem is split into its maximal
    delimiter-free runs, each run is cut at its case and digit boundaries
    without losing or repeating a unit, the non-empty extension comes last
    and unsplit, and no word is empty.  ["archive.tar.gz"] has the stem
    ["archive.tar"] and the extension ["gz"]. *)
Theorem C2_extractWords_is_segmentation :
  (forall text : jsString,
      extractWords text = Spec.segment text
      /\ Forall (fun w => w <> []) (extractWords text))
  /\ (forall fragment : jsString,
        concat (Spec.cutAtBoundaries fragment) = fragment)
  /\ Spec.splitLastDot (str "archive.tar.gz")
     = Some (str "archive.tar", str "gz")
  /\ extractWords (str "archive.tar.gz")
     = [str "archive"; str "tar"; str "gz"].
Proof.
  split; [|split; [apply cutAtBoundaries_concat | now vm_compute]].
  intros text. split; [apply extractWords_segment|].
  eapply Forall_impl; [|apply extractWords_nonEmpty].
  intros [|c w] H; [discriminate H | discriminate].
Qed.

(** C3.  The score of every Match is the additive model of section 4.4
    evaluated at the offset of the match, the length of the query, the
    length of the initials index, the length of the text, the basename
    flag, and whether the lower-cased text ends with [".md"]. *)
Theorem C3_score_is_additive_model (this : t) (text : jsString)
    (isBasename : bool) (r : AcronymSearchResult.t) (m : SearchResult.t) :
  searchText this (Some text) isBasename = Return r ->
  AcronymSearchResult.match_ r = Some m ->
  exists (index : jsString) (matchIndex : Z),
    createSearchableString (extractWords text) = Return index
    /\ matchIndexOf this text = Return matchIndex
    /\ (AcronymSearchResult.score r
        == Spec.score matchIndex (JS.length (query this)) (JS.length index)
             (JS.length text) isBasename
             (endsWith (toLowerCase text) (str ".md")))%Q.
Proof.
  intros Hr Hm.
  destruct (nonEmpty (query this)) eqn:Hq;
    [|rewrite (searchText_inert this Hq) in Hr; injection Hr as <-;
      discriminate].
  destruct (nonEmpty text) eqn:Ht;
    [|rewrite searchText_falsy in Hr by (now destruct text);
      injection Hr as <-; discriminate].
  exists (Spec.buildIndex (extractWords text)).
  rewrite matchIndexOf_indexOf, createSearchableString_extractWords.
  destruct (searchText_spec this text isBasename Hq Ht)
    as [(H & _)|(k & Hidx & _ & _ & H)]; rewrite H in Hr;
    injection Hr as <-; [discriminate|].
  exists (Z.of_nat k). rewrite Hidx. repeat split.
  apply calculateScore_model.
Qed.

Lemma C3_score_is_additive_model_witness :
  exists r m,
    searchText (new (Some (str "mfc"))) (Some (str "MyFirstComponent.jsx"))
      false = Return r
    /\ AcronymSearchResult.match_ r = Some m
    /\ exists index matchIndex,
         createSearchableString (extractWords (str "MyFirstComponent.jsx"))
         = Return index
         /\ matchIndexOf (new (Some (str "mfc"))) (str "MyFirstComponent.jsx")
            = Return matchIndex
         /\ (AcronymSearchResult.score r
             == Spec.score matchIndex
                  (JS.length (query (new (Some (str "mfc")))))
                  (JS.length index) (JS.length (str "MyFirstComponent.jsx"))
                  false
                  (endsWith (toLowerCase (str "MyFirstComponent.jsx"))
                     (str ".md")))%Q.
Proof.
  eexists. eexists.
  split; [vm_compute; reflexivity|]. split; [reflexivity|].
  eapply C3_score_is_additive_model; [vm_compute|]; reflexivity.
Defined.

(** C4.  A searcher built from a [null], empty or white-space-only query
    has no search term, and [searchText] and [searchWithFallback] return
    No Match with score 0 for every input; a Match, from any searcher,
    has a score of at least 0.1, so never 0. *)
Theorem C4_blank_query_never_matches (raw : option jsString) :
  blank raw = true ->
  let this := new raw in
  hasSearchTerm this = false
  /\ (forall text isBasename,
        searchText this text isBasename
        = Return (AcronymSearchResult.mk None 0))
  /\ (forall primaryText pathSegments,
        searchWithFallback this primaryText pathSegments
        = Return (AcronymSearchResult.mk None 0))
  /\ (forall (other : t) text isBasename r,
        searchText other text isBasename = Return r ->
        matched r = true ->
        (0.1 <= AcronymSearchResult.score r)%Q
        /\ ~ (AcronymSearchResult.score r == 0)%Q).
Proof.
  intros Hblank this.
  assert (Hq : query this = []).
  { unfold this, new. cbn [query].
    destruct raw as [q|]; [|reflexivity].
    cbn [blank] in Hblank. now rewrite trim_blank. }
  assert (Hne : nonEmpty (query this) = false) by now rewrite Hq.
  split; [unfold hasSearchTerm; now rewrite Hq|].
  split; [intros; now apply searchText_inert|].
  split.
  - intros p ps. unfold searchWithFallback.
    rewrite !(searchText_inert this Hne). unfold bind.
    destruct ps; [|reflexivity].
    cbn. now rewrite !(searchText_inert this Hne).
  - intros other text b r Hr Hm.
    destruct (searchText_returns other text b) as (r' & Hr' & _ & _ & Hfloor).
    rewrite Hr in Hr'. injection Hr' as <-.
    specialize (Hfloor Hm). split; [assumption|]. intros E. lra.
Qed.

Lemma C4_blank_query_never_matches_witness :
  blank (Some (str "   ")) = true
  /\ hasSearchTerm (new (Some (str "   "))) = false
  /\ searchText (new (Some (str "   "))) (Some (str "anyfile.txt")) true
     = Return (AcronymSearchResult.mk None 0).
Proof.
  split; [reflexivity|].
  destruct (C4_blank_query_never_matches (Some (str "   ")) eq_refl)
    as (H1 & H2 & _).
  split; [exact H1 | apply H2].
Defined.

(** C5.  [searchWithFallback] tries the primary text as basename, then,
    only when path segments are given, their basename as basename and
    their path as non-basename, and returns the first Match; no attempt
    throws, a [null], [undefined] or empty text is No Match for its
    attempt, and the result is No Match when every attempt fails. *)
Theorem C5_fallback_chain (this : t) (primaryText : option jsString)
    (pathSegments : option PathSegments.t) :
  (exists r1,
      searchText this primaryText true = Return r1
      /\ if matched r1
         then searchWithFallback this primaryText pathSegments = Return r1
         else
           match pathSegments with
           | None =>
               searchWithFallback this primaryText pathSegments
               = Return (AcronymSearchResult.mk None 0)
           | Some segs =>
               exists r2,
                 searchText this (PathSegments.basename segs) true = Return r2
                 /\ if matched r2
                    then searchWithFallback this primaryText pathSegments
                         = Return r2
                    else
                      exists r3,
                        searchText this (PathSegments.path segs) false
                        = Return r3
                        /\ searchWithFallback this primaryText pathSegments
                           = Return r3
                        /\ (if matched r3 then True
                            else r3 = AcronymSearchResult.mk None 0)
           end)
  /\ (forall isBasename,
        searchText this None isBasename
        = Return (AcronymSearchResult.mk None 0)
        /\ searchText this (Some []) isBasename
           = Return (AcronymSearchResult.mk None 0)).
Proof.
  split; [|intros b; split; now apply searchText_falsy].
  unfold searchWithFallback.
  destruct (searchText_returns this primaryText true) as (r1 & -> & N1 & _).
  exists r1. split; [reflexivity|]. unfold bind at 1 3 5.
  destruct (matched r1) eqn:M1.
  - now destruct pathSegments.
  - destruct pathSegments as [segs|]; [|now rewrite N1].
    cbn [negb].
    destruct (searchText_returns this (PathSegments.basename segs) true)
      as (r2 & -> & N2 & _).
    exists r2. split; [reflexivity|]. unfold bind.
    destruct (matched r2) eqn:M2; cbn [negb]; [reflexivity|].
    destruct (searchText_returns this (PathSegments.path segs) false)
      as (r3 & -> & N3 & _).
    exists r3. split; [reflexivity|]. split; [reflexivity|].
    destruct (matched r3); [exact I | now apply N3].
Qed.

(** C6.  The claim: every Match carries one span per matched word, hence
    a non-empty span sequence.  [searchText_spans] proves the spans of the
    words in the matched range for every input, and their number when the
    index has one unit per word; [searchText_acronym_match] proves the
    whole claim for texts without U+0130.  This theorem evaluates the
    query ["m"] on ["İ.md"]: the result is a Match whose span sequence is
    empty. *)
Theorem C6_dotted_I_match_has_no_span :
  exists score : Q,
    searchText (new (Some (str "m"))) (Some dottedCapitalI_md) false
    = Return (AcronymSearchResult.mk (Some (SearchResult.mk score [])) score)
    /\ (0.1 <= score)%Q.
Proof.
  eexists. split; [vm_compute; reflexivity|]. vm_compute. discriminate.
Qed.

(** C7 as amended.  With the query, the index, the text and the basename
    flag fixed, a match at offset 0 scores at least as much as a match at
    an offset [k > 0], and strictly more whenever its own score is above
    the floor 0.1. *)
Theorem C7_prefix_match_scores_higher_above_floor (this : t)
    (index : jsString) (text : jsString) (isBasename : bool) (k : Z) :
  (0 < k)%Z ->
  (calculateScore this index k text isBasename
   <= calculateScore this index 0 text isBasename)%Q
  /\ ((0.1 < calculateScore this index 0 text isBasename)%Q ->
      (calculateScore this index k text isBasename
       < calculateScore this index 0 text isBasename)%Q).
Proof.
  intros Hk. unfold calculateScore.
  assert (Hk0 : (k =? 0)%Z = false) by (apply Z.eqb_neq; lia).
  assert (HkQ : (0 < inject_Z k)%Q) by (unfold Qlt; simpl; lia).
  rewrite Hk0. cbn [Z.eqb].
  set (density := (inject_Z (JS.length (query this))
                   / inject_Z (Z.max (JS.length index) 1))%Q).
  set (penalty := inject_Z (Z.max 0 (JS.length text - 15))).
  apply Qmax_floor_lt.
  change (inject_Z 0) with 0%Q.
  destruct (1 <? JS.length (query this))%Z, isBasename,
    (JS.length (query this) =? JS.length index)%Z,
    (endsWith (toLowerCase text) (str ".md")); lra.
Qed.

Lemma C7_prefix_match_scores_higher_above_floor_witness :
  (0 < 1)%Z
  /\ (calculateScore (new (Some (str "abc"))) (str "zabct") 1
        (str "zebra-apple-banana-cherry.txt") false
      < calculateScore (new (Some (str "abc"))) (str "zabct") 0
          (str "zebra-apple-banana-cherry.txt") false)%Q.
Proof.
  split; [lia|].
  apply (C7_prefix_match_scores_higher_above_floor
           (new (Some (str "abc"))) (str "zabct")
           (str "zebra-apple-banana-cherry.txt") false 1); [lia|].
  vm_compute. reflexivity.
Defined.

(** C7 as stated fails: on a 244-unit text whose index is ["aax"], the
    query ["a"] occurs at offsets 0 and 1, and both matches score the
    floor 0.1. *)
Lemma C7_counterexample_both_at_floor :
  let this := new (Some (str "a")) in
  let index := Spec.buildIndex (extractWords longName) in
  Spec.occursAt index (query this) 0
  /\ Spec.occursAt index (query this) 1
  /\ (calculateScore this index 0 longName false == 0.1)%Q
  /\ (calculateScore this index 1 longName false == 0.1)%Q
  /\ ~ (calculateScore this index 1 longName false
        < calculateScore this index 0 longName false)%Q.
Proof.
  cbv zeta. split; [|split; [|split; [|split]]].
  - now exists [], (str "ax").
  - now exists (str "a"), (str "x").
  - now vm_compute.
  - now vm_compute.
  - vm_compute. discriminate.
Qed.

(** C8 as amended.  With the index, the offset and the text fixed, the
    score with the basename flag is at least the score without it, and
    strictly greater whenever it is above the floor 0.1. *)
Theorem C8_basename_scores_higher_above_floor (this : t)
    (index : jsString) (matchIndex : Z) (text : jsString) :
  (calculateScore this index matchIndex text false
   <= calculateScore this index matchIndex text true)%Q
  /\ ((0.1 < calculateScore this index matchIndex text true)%Q ->
      (calculateScore this index matchIndex text false
       < calculateScore this index matchIndex text true)%Q).
Proof.
  unfold calculateScore.
  set (density := (inject_Z (JS.length (query this))
                   / inject_Z (Z.max (JS.length index) 1))%Q).
  set (penalty := inject_Z (Z.max 0 (JS.length text - 15))).
  set (position := inject_Z matchIndex).
  apply Qmax_floor_lt.
  destruct (matchIndex =? 0)%Z, (1 <? JS.length (query this))%Z,
    (JS.length (query this) =? JS.length index)%Z,
    (endsWith (toLowerCase text) (str ".md")); lra.
Qed.

Lemma C8_basename_scores_higher_above_floor_witness :
  (calculateScore (new (Some (str "abc"))) (str "abct") 0
     (str "apple-banana-cherry.txt") false
   < calculateScore (new (Some (str "abc"))) (str "abct") 0
       (str "apple-banana-cherry.txt") true)%Q.
Proof.
  apply (C8_basename_scores_higher_above_floor
           (new (Some (str "abc"))) (str "abct") 0
           (str "apple-banana-cherry.txt")).
  vm_compute. reflexivity.
Defined.

(** C8 as stated fails: for the query ["x"] on the 244-unit text,
    [searchText] returns the same score, the floor 0.1, with and without
    the basename flag. *)
Lemma C8_counterexample_both_at_floor :
  exists withFlag withoutFlag : Q,
    searchText (new (Some (str "x"))) (Some longName) true
    = Return (AcronymSearchResult.mk
                (Some (SearchResult.mk withFlag [(4, 5)%Z])) withFlag)
    /\ searchText (new (Some (str "x"))) (Some longName) false
       = Return (AcronymSearchResult.mk
                   (Some (SearchResult.mk withoutFlag [(4, 5)%Z])) withoutFlag)
    /\ (withFlag == 0.1)%Q
    /\ (withoutFlag == 0.1)%Q
    /\ ~ (withoutFlag < withFlag)%Q.
Proof.
  eexists. eexists.
  split; [vm_compute; reflexivity|]. split; [vm_compute; reflexivity|].
  split; [now vm_compute|]. split; [now vm_compute|].
  vm_compute. discriminate.
Qed.

(** C9.  The claim: the initials index is the concatenation of the
    lower-cased first characters of the words, in order, and is as long as
    the word sequence.  [createSearchableString_extractWords] proves the
    concatenation and [buildIndex_length] the length when no word starts
    with U+0130 ([buildIndex_extractWords_length]: when the text has no
    U+0130).  This theorem evaluates ["İ.md"]: two words, an index of
    three units. *)
Theorem C9_dotted_I_index_longer_than_words :
  exists index : jsString,
    createSearchableString (extractWords dottedCapitalI_md) = Return index
    /\ index = [105; 775; 109]
    /\ List.length (extractWords dottedCapitalI_md) = 2%nat
    /\ List.length index = 3%nat.
Proof. eexists. vm_compute. repeat split. Qed.

(** C10.  [searchText] and [searchWithFallback] always return, and in the
    result either the match is present and carries the top-level score,
    or it is absent and the top-level score is 0. *)
Theorem C10_score_fields_agree (this : t) :
  (forall text isBasename,
      exists r,
        searchText this text isBasename = Return r /\ scoresAgree r)
  /\ (forall primaryText pathSegments,
        exists r,
          searchWithFallback this primaryText pathSegments = Return r
          /\ scoresAgree r).
Proof.
  split.
  - intros text b.
    destruct (searchText_returns this text b) as (r & Hr & _ & Ha & _).
    now exists r.
  - intros p ps.
    destruct (searchWithFallback_returns this p ps) as (r & Hr & _ & Ha & _).
    now exists r.
Qed.

(** ** Further properties: the query *)

Section QueryFacts.

Lemma trimStart_nil_iff (s : jsString) :
  trimStart s = [] <-> forallb isWhiteSpace s = true.
Proof.
  split; [|apply trimStart_blank].
  induction s as [|c s IH]; simpl; [reflexivity|].
  destruct (isWhiteSpace c); [exact IH | discriminate].
Qed.

Lemma trimStart_app (a b : jsString) :
  trimStart (a ++ b)
  = if forallb isWhiteSpace a then trimStart b else trimStart a ++ b.
Proof.
  induction a as [|c a IH]; simpl; [reflexivity|].
  destruct (isWhiteSpace c); [exact IH | reflexivity].
Qed.

Lemma forallb_rev {A} (f : A -> bool) (l : list A) :
  forallb f (rev l) = forallb f l.
Proof.
  induction l as [|x l IH]; [reflexivity|].
  simpl. rewrite forallb_app, IH. simpl. now rewrite andb_true_r, andb_comm.
Qed.

Lemma trimStart_keeps_blankness (s : jsString) :
  forallb isWhiteSpace (trimStart s) = forallb isWhiteSpace s.
Proof.
  induction s as [|c s IH]; simpl; [reflexivity|].
  destruct (isWhiteSpace c) eqn:E; [exact IH|]. simpl. now rewrite E.
Qed.

Lemma trim_nil_iff (s : jsString) :
  trim s = [] <-> forallb isWhiteSpace s = true.
Proof.
  unfold trim, trimEnd. split.
  - intros H. apply (f_equal (@rev _)) in H. rewrite rev_involutive in H.
    simpl in H. apply trimStart_nil_iff in H.
    now rewrite forallb_rev, trimStart_keeps_blankness in H.
  - apply trim_blank.
Qed.

Lemma toLowerCase_nil_iff (s : jsString) : toLowerCase s = [] <-> s = [].
Proof.
  split; [|now intros ->]. destruct s as [|c s]; [reflexivity|].
  unfold toLowerCase. simpl. pose proof (lowerUnit_length_ge c) as H.
  destruct (lowerUnit c); [simpl in H; lia | discriminate].
Qed.

(** X1.  A searcher has a search term exactly when the query it was built
    from is not blank: it is a string with a unit that is not white
    space. *)
Theorem hasSearchTerm_iff_not_blank (raw : option jsString) :
  hasSearchTerm (new raw) = negb (blank raw).
Proof.
  unfold hasSearchTerm, new, blank. cbn [query].
  destruct raw as [q|]; [|reflexivity].
  destruct (forallb isWhiteSpace q) eqn:E.
  - now rewrite (trim_blank q E).
  - cbn [negb]. apply negb_true_iff, Z.eqb_neq. unfold JS.length.
    destruct (toLowerCase (trim q)) as [|c l] eqn:El; [|simpl; lia].
    apply toLowerCase_nil_iff, trim_nil_iff in El. congruence.
Qed.

Lemma trim_padding (before q after : jsString) :
  forallb isWhiteSpace before = true ->
  forallb isWhiteSpace after = true ->
  trim (before ++ q ++ after) = trim q.
Proof.
  intros Hb Ha. unfold trim, trimEnd.
  rewrite trimStart_app, Hb, trimStart_app.
  destruct (forallb isWhiteSpace q) eqn:Hq.
  - now rewrite (trimStart_blank after Ha), (trimStart_blank q Hq).
  - rewrite rev_app_distr, trimStart_app, forallb_rev, Ha.
    reflexivity.
Qed.

(** X2.  White space around the query makes no difference: the padded
    query builds the same searcher. *)
Theorem new_ignores_padding (before q after : jsString) :
  forallb isWhiteSpace before = true ->
  forallb isWhiteSpace after = true ->
  new (Some (before ++ q ++ after)) = new (Some q).
Proof. intros Hb Ha. unfold new. now rewrite trim_padding. Qed.

Lemma new_ignores_padding_witness :
  new (Some (str "  " ++ str "mfc" ++ str " ")) = new (Some (str "mfc")).
Proof. apply new_ignores_padding; reflexivity. Defined.

End QueryFacts.

Section QueryCase.












End QueryCase.

(** ** Further properties: the score *)

Section ScoreFacts.

Lemma inject_Z_nonneg (z : Z) : (0 <= z)%Z -> (0 <= inject_Z z)%Q.
Proof. intros H. unfold Qle. simpl. lia. Qed.

Lemma inject_Z_le (a b : Z) : (a <= b)%Z -> (inject_Z a <= inject_Z b)%Q.
Proof. intros H. unfold Qle. simpl. lia. Qed.

Lemma density_le_1 (queryLength indexLength : Z) :
  (queryLength <= indexLength)%Z ->
  (inject_Z queryLength / inject_Z (Z.max indexLength 1) <= 1)%Q.
Proof.
  intros H. apply Qle_shift_div_r.
  - unfold Qlt. simpl. lia.
  - rewrite Qmult_1_l. apply inject_Z_le. lia.
Qed.

Lemma calculateScore_upper (this : t) (index : jsString) (matchIndex : Z)
    (text : jsString) (isBasename : bool) :
  (0 <= matchIndex)%Z ->
  (JS.length (query this) <= JS.length index)%Z ->
  (calculateScore this index matchIndex text isBasename <= 12.5)%Q.
Proof.
  intros Hmi Hlen. unfold calculateScore.
  pose proof (density_le_1 _ _ Hlen) as Hd.
  pose proof (inject_Z_nonneg _ (Z.le_max_l 0 (JS.length text - 15))) as Hp.
  pose proof (inject_Z_nonneg _ Hmi) as Hm.
  set (density := (inject_Z (JS.length (query this))
                   / inject_Z (Z.max (JS.length index) 1))%Q) in *.
  set (penalty := inject_Z (Z.max 0 (JS.length text - 15))) in *.
  set (position := inject_Z matchIndex) in *.
  apply Q.max_lub; [lra|].
  destruct (matchIndex =? 0)%Z, (1 <? JS.length (query this))%Z, isBasename,
    (JS.length (query this) =? JS.length index)%Z,
    (endsWith (toLowerCase text) (str ".md")); lra.
Qed.

Lemma searchText_score_range (this : t) (text : option jsString)
    (isBasename : bool) :
  exists r,
    searchText this text isBasename = Return r
    /\ if matched r
       then (0.1 <= AcronymSearchResult.score r
             /\ AcronymSearchResult.score r <= 12.5)%Q
       else AcronymSearchResult.score r = 0%Q.
Proof.
  destruct (nonEmpty (query this)) eqn:Hq;
    [|rewrite (searchText_inert this Hq); now exists noMatch].
  destruct (truthy text) eqn:Ht;
    [|rewrite (searchText_falsy this text isBasename Ht); now exists noMatch].
  destruct text as [[|c text]|]; try discriminate.
  destruct (searchText_spec this (c :: text) isBasename Hq eq_refl)
    as [(H & _)|(k & _ & Hocc & _ & H)]; rewrite H;
    eexists; (split; [reflexivity|]); [reflexivity|].
  cbn [matched AcronymSearchResult.match_ AcronymSearchResult.score].
  split; [apply calculateScore_floor|].
  apply calculateScore_upper; [lia|].
  apply occursAt_length in Hocc. unfold JS.length. lia.
Qed.

(** A property of every result of [searchText] is a property of every
    result of [searchWithFallback]. *)
Lemma searchWithFallback_inherits (this : t)
    (P : AcronymSearchResult.t -> Prop) :
  (forall text isBasename,
      exists r, searchText this text isBasename = Return r /\ P r) ->
  forall primaryText pathSegments,
    exists r,
      searchWithFallback this primaryText pathSegments = Return r /\ P r.
Proof.
  intros HP primaryText pathSegments. unfold searchWithFallback.
  destruct (HP primaryText true) as (r1 & -> & H1). unfold bind at 1.
  destruct pathSegments as [segs|]; [|now exists r1].
  destruct (negb (matched r1)); [|now exists r1].
  destruct (HP (PathSegments.basename segs) true) as (r2 & -> & H2).
  unfold bind.
  destruct (negb (matched r2)); [|now exists r2].
  apply HP.
Qed.

(** X4.  Both entry points return a score of exactly 0 for No Match and a
    score between 0.1 and 12.5 for a Match. *)
Theorem score_range (this : t) :
  (forall text isBasename,
      exists r,
        searchText this text isBasename = Return r
        /\ if matched r
           then (0.1 <= AcronymSearchResult.score r
                 /\ AcronymSearchResult.score r <= 12.5)%Q
           else AcronymSearchResult.score r = 0%Q)
  /\ (forall primaryText pathSegments,
        exists r,
          searchWithFallback this primaryText pathSegments = Return r
          /\ if matched r
             then (0.1 <= AcronymSearchResult.score r
                   /\ AcronymSearchResult.score r <= 12.5)%Q
             else AcronymSearchResult.score r = 0%Q).
Proof.
  split; [apply searchText_score_range|].
  apply (searchWithFallback_inherits this
           (fun r => if matched r
                     then (0.1 <= AcronymSearchResult.score r
                           /\ AcronymSearchResult.score r <= 12.5)%Q
                     else AcronymSearchResult.score r = 0%Q)).
  apply searchText_score_range.
Qed.

(** X5.  With the query, the index and the basename flag fixed, a match
    further to the right in a text that is at least as long never scores
    more, as long as both texts agree on ending with [".md"]. *)
Theorem score_monotone (this : t) (index : jsString) (j k : Z)
    (shorter longer : jsString) (isBasename : bool) :
  (0 <= j <= k)%Z ->
  (JS.length shorter <= JS.length longer)%Z ->
  endsWith (toLowerCase shorter) (str ".md")
  = endsWith (toLowerCase longer) (str ".md") ->
  (calculateScore this index k longer isBasename
   <= calculateScore this index j shorter isBasename)%Q.
Proof.
  intros Hjk Hlen Hmd. unfold calculateScore. rewrite Hmd.
  assert (Hp : (inject_Z (Z.max 0 (JS.length shorter - 15))
                <= inject_Z (Z.max 0 (JS.length longer - 15)))%Q)
    by (apply inject_Z_le; lia).
  assert (Hpos : (inject_Z j <= inject_Z k)%Q) by (apply inject_Z_le; lia).
  assert (Hj : (0 <= inject_Z j)%Q) by (apply inject_Z_nonneg; lia).
  set (density := (inject_Z (JS.length (query this))
                   / inject_Z (Z.max (JS.length index) 1))%Q).
  set (p1 := inject_Z (Z.max 0 (JS.length shorter - 15))) in *.
  set (p2 := inject_Z (Z.max 0 (JS.length longer - 15))) in *.
  apply Q.max_le_compat_l.
  destruct (Z.eqb_spec k 0) as [Hk|Hk], (Z.eqb_spec j 0) as [Hj0|Hj0];
    try lia; subst; change (inject_Z 0) with 0%Q in *;
    destruct (1 <? JS.length (query this))%Z, isBasename,
      (JS.length (query this) =? JS.length index)%Z,
      (endsWith (toLowerCase longer) (str ".md")); lra.
Qed.

Lemma score_monotone_witness :
  (calculateScore (new (Some (str "abc"))) (str "zabct") 2
     (str "zebra-apple-banana-cherry.txt") true
   <= calculateScore (new (Some (str "abc"))) (str "zabct") 1
        (str "apple-banana-cherry.txt") true)%Q.
Proof.
  apply score_monotone; [lia | vm_compute; discriminate | reflexivity].
Defined.

End ScoreFacts.

(** ** Further properties: the segmenter *)

Section SegmenterFacts.

Lemma segment_nonempty (text : jsString) :
  text <> [] ->
  Spec.segment text
  = let (stem, extension) :=
      match Spec.splitLastDot text with
      | Some p => p
      | None => (text, [])
      end in
    filter (fun w => negb (Spec.isZeroLength w))
      (if Spec.isZeroLength extension
       then flat_map Spec.cutAtBoundaries (Spec.fragments stem)
       else flat_map Spec.cutAtBoundaries (Spec.fragments stem) ++ [extension]).
Proof. destruct text; [contradiction | reflexivity]. Qed.

Lemma splitLastDot_none (text : jsString) :
  ~ In 46 text -> Spec.splitLastDot text = None.
Proof.
  induction text as [|c s IH]; [reflexivity|]. intros H.
  cbn [Spec.splitLastDot]. rewrite IH by (intros F; apply H; now right).
  destruct (N.eqb_spec c 46) as [->|_]; [|reflexivity].
  exfalso. apply H. now left.
Qed.

Lemma splitLastDot_some (stem ext : jsString) :
  ~ In 46 ext -> Spec.splitLastDot (stem ++ 46 :: ext) = Some (stem, ext).
Proof.
  intros H. induction stem as [|c s IH].
  - cbn [app Spec.splitLastDot]. now rewrite (splitLastDot_none ext H).
  - cbn [app Spec.splitLastDot]. now rewrite IH.
Qed.

Lemma fragments_concat (s : jsString) :
  concat (Spec.fragments s) = filter (fun c => negb (isDelimiter c)) s.
Proof.
  induction s as [|c s IH]; [reflexivity|].
  cbn [Spec.fragments filter]. change (Spec.delimiter c) with (isDelimiter c).
  destruct (isDelimiter c); cbn [negb]; [exact IH|].
  rewrite <- IH.
  destruct (Spec.fragments s) as [|f fs] eqn:E; [reflexivity|].
  destruct s as [|d s]; [discriminate E|].
  now destruct (Spec.delimiter d).
Qed.

Lemma concat_filter_nonZero (l : list jsString) :
  concat (filter (fun w => negb (Spec.isZeroLength w)) l) = concat l.
Proof.
  induction l as [|w l IH]; [reflexivity|].
  destruct w; simpl; now rewrite IH.
Qed.

(** X6.  Segmentation keeps the text: the words, put end to end, are the
    stem without its delimiter units, followed by the extension (the part
    after the last dot). *)
Theorem extractWords_keeps_content :
  (forall text : jsString,
      ~ In 46 text ->
      concat (extractWords text)
      = filter (fun c => negb (isDelimiter c)) text)
  /\ (forall stem ext : jsString,
        ~ In 46 ext ->
        concat (extractWords (stem ++ 46 :: ext))
        = filter (fun c => negb (isDelimiter c)) stem ++ ext).
Proof.
  split.
  - intros text H. rewrite extractWords_segment.
    destruct text as [|c s]; [reflexivity|].
    rewrite segment_nonempty by discriminate.
    rewrite (splitLastDot_none _ H). cbn [Spec.isZeroLength].
    now rewrite concat_filter_nonZero, cutAll_concat, fragments_concat.
  - intros stem ext H. rewrite extractWords_segment.
    rewrite segment_nonempty by (now destruct stem).
    rewrite (splitLastDot_some stem ext H).
    rewrite concat_filter_nonZero.
    destruct ext as [|e ext]; cbn [Spec.isZeroLength].
    + now rewrite cutAll_concat, fragments_concat, app_nil_r.
    + rewrite concat_app, cutAll_concat, fragments_concat.
      simpl. now rewrite app_nil_r.
Qed.

Lemma extractWords_keeps_content_witness :
  concat (extractWords (str "my-first_class"))
  = filter (fun c => negb (isDelimiter c)) (str "my-first_class")
  /\ concat (extractWords (str "get_the" ++ 46 :: str "txt"))
     = filter (fun c => negb (isDelimiter c)) (str "get_the") ++ str "txt".
Proof.
  destruct extractWords_keeps_content as [H1 H2]. split.
  - apply H1. vm_compute. intuition discriminate.
  - apply H2. vm_compute. intuition discriminate.
Defined.

End SegmenterFacts.

Section WordFacts.

Lemma splitCamel_is_cut (w : jsString) :
  nonEmpty w = true -> splitCamel w = Spec.cutAtBoundaries w.
Proof.
  destruct w as [|c s]; [discriminate|]. intros _. apply splitCamelFrom_cut.
Qed.

Lemma cut_head (d : codeUnit) (r : jsString) :
  exists w ws, Spec.cutAtBoundaries (d :: r) = (d :: w) :: ws.
Proof.
  cbn [Spec.cutAtBoundaries].
  destruct (Spec.cutAtBoundaries r) as [|w ws]; [now exists [], []|].
  destruct r as [|e r]; [now exists [], []|].
  destruct (Spec.boundary d e); [now exists [], (w :: ws) | now exists w, ws].
Qed.

(** A piece of a cut fragment is not cut again. *)
Lemma cut_pieces_whole (f : jsString) :
  forall w, In w (Spec.cutAtBoundaries f) -> Spec.cutAtBoundaries w = [w].
Proof.
  induction f as [|c r IH]; [now simpl|].
  intros w. cbn [Spec.cutAtBoundaries].
  destruct (Spec.cutAtBoundaries r) as [|p ps] eqn:E;
    [intros [<-|[]]; reflexivity|].
  destruct r as [|d r]; [discriminate E|].
  destruct (Spec.boundary c d) eqn:B.
  - intros [<-|H]; [reflexivity | now apply IH].
  - intros [<-|H]; [|apply IH; now right].
    destruct (cut_head d r) as (p' & ps' & E'). rewrite E in E'.
    injection E' as -> ->.
    change (Spec.cutAtBoundaries (c :: d :: p'))
      with (match Spec.cutAtBoundaries (d :: p') with
            | w :: ws =>
                if Spec.boundary c d then [c] :: w :: ws else (c :: w) :: ws
            | [] => [[c]]
            end).
    rewrite (IH (d :: p') (or_introl eq_refl)). now rewrite B.
Qed.

Lemma fragments_units_free (s f : jsString) :
  In f (Spec.fragments s) ->
  forallb (fun c => negb (isDelimiter c)) f = true.
Proof.
  intros Hf. apply forallb_forall. intros c Hc.
  assert (H : In c (concat (Spec.fragments s)))
    by (apply in_concat; now exists f).
  rewrite fragments_concat in H. now apply filter_In in H.
Qed.

Lemma segment_word_atomic (stem w : jsString) :
  In w (flat_map Spec.cutAtBoundaries (Spec.fragments stem)) -> atomic w.
Proof.
  intros H. apply in_flat_map in H as (f & Hf & Hw).
  pose proof (cutAtBoundaries_nonEmpty f) as Hne.
  rewrite Forall_forall in Hne. specialize (Hne w Hw).
  split; [assumption|]. split.
  - pose proof (fragments_units_free stem f Hf) as Hfree.
    rewrite forallb_forall in Hfree. apply forallb_forall. intros c Hc.
    apply Hfree. rewrite <- (cutAtBoundaries_concat f).
    apply in_concat. now exists w.
  - rewrite splitCamel_is_cut by assumption. now apply (cut_pieces_whole f).
Qed.

Lemma delimiter_free_no_dot (w : jsString) :
  forallb (fun c => negb (isDelimiter c)) w = true -> ~ In 46 w.
Proof.
  intros H Hin. rewrite forallb_forall in H. now specialize (H 46 Hin).
Qed.

Lemma fragments_whole (w : jsString) :
  nonEmpty w = true ->
  forallb (fun c => negb (isDelimiter c)) w = true ->
  Spec.fragments w = [w].
Proof.
  induction w as [|c w IH]; [discriminate|]. intros _ H.
  cbn [forallb] in H. apply andb_true_iff in H as [Hc Hw].
  cbn [Spec.fragments]. change (Spec.delimiter c) with (isDelimiter c).
  apply negb_true_iff in Hc. rewrite Hc.
  destruct w as [|d w]; [reflexivity|].
  rewrite (IH eq_refl Hw).
  cbn [forallb] in Hw. apply andb_true_iff in Hw as [Hd _].
  apply negb_true_iff in Hd.
  change (Spec.delimiter d) with (isDelimiter d). now rewrite Hd.
Qed.

Lemma fragments_app_delimiter (w : jsString) (d : codeUnit) (s : jsString) :
  nonEmpty w = true ->
  forallb (fun c => negb (isDelimiter c)) w = true ->
  isDelimiter d = true ->
  Spec.fragments (w ++ d :: s) = w :: Spec.fragments s.
Proof.
  intros Hne Hfree Hd. induction w as [|c w IH]; [discriminate|].
  cbn [forallb] in Hfree. apply andb_true_iff in Hfree as [Hc Hw].
  apply negb_true_iff in Hc.
  cbn [app Spec.fragments]. change (Spec.delimiter c) with (isDelimiter c).
  rewrite Hc. destruct w as [|e w].
  - cbn [app Spec.fragments]. change (Spec.delimiter d) with (isDelimiter d).
    rewrite Hd. now destruct (Spec.fragments s).
  - rewrite (IH eq_refl Hw). cbn [app].
    cbn [forallb] in Hw. apply andb_true_iff in Hw as [He _].
    apply negb_true_iff in He.
    change (Spec.delimiter e) with (isDelimiter e). now rewrite He.
Qed.

Lemma fragments_join (sep : codeUnit) (words : list jsString) :
  isDelimiter sep = true ->
  Forall atomic words ->
  Spec.fragments (join [sep] words) = words.
Proof.
  intros Hsep. induction 1 as [|w ws (Hne & Hfree & _) Hws IH];
    [reflexivity|].
  cbn [join]. destruct ws as [|w' ws]; [now apply fragments_whole|].
  cbn [app]. rewrite fragments_app_delimiter by assumption. now rewrite IH.
Qed.

Lemma cut_atomic_words (words : list jsString) :
  Forall atomic words -> flat_map Spec.cutAtBoundaries words = words.
Proof.
  induction 1 as [|w ws (Hne & _ & Hcut) _ IH]; [reflexivity|].
  cbn [flat_map]. rewrite IH, <- splitCamel_is_cut, Hcut by assumption.
  reflexivity.
Qed.

Lemma join_no_dot (sep : codeUnit) (words : list jsString) :
  sep <> 46 -> Forall atomic words -> ~ In 46 (join [sep] words).
Proof.
  intros Hsep. induction 1 as [|w ws (_ & Hfree & _) _ IH]; [now simpl|].
  cbn [join]. pose proof (delimiter_free_no_dot w Hfree) as Hw.
  destruct ws as [|w' ws]; [assumption|].
  intros H. apply in_app_or in H as [H|[H|H]]; [tauto | congruence | tauto].
Qed.

Lemma filter_nonZero_all (words : list jsString) :
  Forall (fun w => nonEmpty w = true) words ->
  filter (fun w => negb (Spec.isZeroLength w)) words = words.
Proof.
  intros H. apply filter_all. eapply Forall_impl; [|exact H].
  now intros [|c w].
Qed.

Lemma join_segmented (sep : codeUnit) (words : list jsString) :
  isDelimiter sep = true ->
  sep <> 46 ->
  Forall atomic words ->
  extractWords (join [sep] words) = words
  /\ (forall ext : jsString,
        ext <> [] -> ~ In 46 ext ->
        extractWords (join [sep] words ++ 46 :: ext) = words ++ [ext]).
Proof.
  intros Hsep Hdot Hal.
  assert (Hne : Forall (fun w => nonEmpty w = true) words)
    by (eapply Forall_impl; [|exact Hal]; now intros w (H & _)).
  split.
  - rewrite extractWords_segment.
    destruct (join [sep] words) as [|c s] eqn:E.
    + destruct Hal as [|w ws (Hw & _) _]; [reflexivity|].
      exfalso. cbn [join] in E. destruct w; [discriminate|].
      destruct ws; discriminate.
    + rewrite <- E. rewrite segment_nonempty by (rewrite E; discriminate).
      rewrite (splitLastDot_none _ (join_no_dot sep words Hdot Hal)).
      cbn [Spec.isZeroLength].
      rewrite (fragments_join sep words Hsep Hal), (cut_atomic_words _ Hal).
      now apply filter_nonZero_all.
  - intros ext Hext Hfree. rewrite extractWords_segment.
    rewrite segment_nonempty by (now destruct (join [sep] words)).
    rewrite (splitLastDot_some _ ext Hfree).
    destruct ext as [|e ext]; [contradiction|]. cbn [Spec.isZeroLength].
    rewrite (fragments_join sep words Hsep Hal), (cut_atomic_words _ Hal).
    apply filter_nonZero_all. apply Forall_app. split; [assumption|].
    now repeat constructor.
Qed.

(** X8.  Segmentation inverts joining: words that the segmenter leaves
    whole, joined by one delimiter unit other than the dot, come back as
    they were, and so they do with a non-empty dot-free extension. *)
Theorem extractWords_join (sep : codeUnit) (words : list jsString) :
  isDelimiter sep = true ->
  sep <> 46 ->
  Forall atomic words ->
  extractWords (join [sep] words) = words
  /\ (forall ext : jsString,
        ext <> [] -> ~ In 46 ext ->
        extractWords (join [sep] words ++ 46 :: ext) = words ++ [ext]).
Proof. apply join_segmented. Qed.

Lemma extractWords_join_witness :
  extractWords (join [45] [str "my"; str "first"; str "class"])
  = [str "my"; str "first"; str "class"]
  /\ extractWords (join [45] [str "my"; str "first"; str "class"]
                   ++ 46 :: str "py")
     = [str "my"; str "first"; str "class"] ++ [str "py"].
Proof.
  destruct (extractWords_join 45 [str "my"; str "first"; str "class"])
    as [H1 H2].
  - reflexivity.
  - discriminate.
  - repeat constructor.
  - split; [exact H1|]. apply H2; [discriminate|].
    vm_compute. intuition discriminate.
Defined.

Lemma splitLastDot_none_free (text : jsString) :
  Spec.splitLastDot text = None -> ~ In 46 text.
Proof.
  induction text as [|c s IH]; [now simpl|].
  cbn [Spec.splitLastDot].
  destruct (Spec.splitLastDot s) as [[stem ext]|]; [discriminate|].
  destruct (N.eqb_spec c 46) as [|Hc]; [discriminate|].
  intros _ [H|H]; [congruence | now apply IH].
Qed.

Lemma splitLastDot_ext_free (text stem ext : jsString) :
  Spec.splitLastDot text = Some (stem, ext) -> ~ In 46 ext.
Proof.
  revert stem ext. induction text as [|c s IH]; intros stem ext;
    [discriminate|].
  cbn [Spec.splitLastDot].
  destruct (Spec.splitLastDot s) as [[stem' ext']|] eqn:E.
  - intros H. injection H as _ <-. now apply (IH stem' ext').
  - destruct (c =? 46); [|discriminate].
    intros H. injection H as _ <-. now apply splitLastDot_none_free.
Qed.

Lemma extractWords_atomic (w : jsString) : atomic w -> extractWords w = [w].
Proof.
  intros H.
  destruct (join_segmented 45 [w] eq_refl ltac:(discriminate)
              (Forall_cons w H (Forall_nil _))) as [E _].
  exact E.
Qed.

(** X7.  The words of a text are its stem words followed by at most one
    extension word; a stem word is whole (no delimiter, no case or digit
    boundary inside) and segmenting it again gives it back; the extension
    word is not empty and has no dot. *)
Theorem extractWords_words_whole (text : jsString) :
  exists stemWords extWords,
    extractWords text = stemWords ++ extWords
    /\ (List.length extWords <= 1)%nat
    /\ Forall (fun w => atomic w /\ extractWords w = [w]) stemWords
    /\ Forall (fun w => w <> [] /\ ~ In 46 w) extWords.
Proof.
  rewrite extractWords_segment.
  destruct text as [|c s]; [exists [], []; now repeat constructor|].
  rewrite segment_nonempty by discriminate.
  assert (Hstem : forall stem,
    Forall (fun w => atomic w /\ extractWords w = [w])
      (flat_map Spec.cutAtBoundaries (Spec.fragments stem))).
  { intros stem. apply Forall_forall. intros w Hw.
    pose proof (segment_word_atomic stem w Hw) as Ha.
    split; [assumption | now apply extractWords_atomic]. }
  assert (Hne : forall stem,
    Forall (fun w => nonEmpty w = true)
      (flat_map Spec.cutAtBoundaries (Spec.fragments stem))).
  { intros stem. eapply Forall_impl; [|apply (Hstem stem)].
    now intros w ((H & _) & _). }
  destruct (Spec.splitLastDot (c :: s)) as [[stem ext]|] eqn:E.
  - pose proof (splitLastDot_ext_free _ _ _ E) as Hfree.
    destruct ext as [|e ext]; cbn [Spec.isZeroLength].
    + exists (flat_map Spec.cutAtBoundaries (Spec.fragments stem)), [].
      rewrite app_nil_r, filter_nonZero_all by apply Hne.
      repeat split; [simpl; lia | apply Hstem | constructor].
    + exists (flat_map Spec.cutAtBoundaries (Spec.fragments stem)),
        [e :: ext].
      rewrite filter_nonZero_all
        by (apply Forall_app; split; [apply Hne | now repeat constructor]).
      repeat split; [simpl; lia | apply Hstem |].
      repeat constructor; [discriminate | assumption].
  - cbn [Spec.isZeroLength].
    exists (flat_map Spec.cutAtBoundaries (Spec.fragments (c :: s))), [].
    rewrite app_nil_r, filter_nonZero_all by apply Hne.
    repeat split; [simpl; lia | apply Hstem | constructor].
Qed.

End WordFacts.

(** ** Further properties: the highlighted spans *)

Section SpanFacts.

Lemma runningOffset_O (words : list jsString) : Spec.runningOffset words 0 = 0%Z.
Proof. reflexivity. Qed.

Lemma runningOffset_cons (w : jsString) (ws : list jsString) (j : nat) :
  Spec.runningOffset (w :: ws) (S j)
  = (JS.length w + 1 + Spec.runningOffset ws j)%Z.
Proof. reflexivity. Qed.

Lemma runningOffset_nonneg (words : list jsString) (j : nat) :
  (0 <= Spec.runningOffset words j)%Z.
Proof.
  revert j. induction words as [|w ws IH]; intros [|j];
    try (unfold Spec.runningOffset; simpl; lia).
  rewrite runningOffset_cons. specialize (IH j). unfold JS.length. lia.
Qed.

Lemma runningOffset_increasing (words : list jsString) :
  Forall (fun w => nonEmpty w = true) words ->
  forall i j,
    (i < j <= List.length words)%nat ->
    (Spec.runningOffset words i + 2 <= Spec.runningOffset words j)%Z.
Proof.
  induction 1 as [|w ws Hw _ IH]; intros i j Hij; [simpl in Hij; lia|].
  destruct j as [|j]; [lia|]. rewrite runningOffset_cons.
  assert (1 <= JS.length w)%Z
    by (destruct w; [discriminate | unfold JS.length; simpl; lia]).
  destruct i as [|i].
  - rewrite runningOffset_O. pose proof (runningOffset_nonneg ws j). lia.
  - rewrite runningOffset_cons. specialize (IH i j). simpl in Hij. lia.
Qed.

Lemma StronglySorted_map_seq {A} (R : A -> A -> Prop) (f : nat -> A) :
  forall c k,
    (forall i j, (k <= i < j)%nat -> (j < k + c)%nat -> R (f i) (f j)) ->
    StronglySorted R (map f (seq k c)).
Proof.
  induction c as [|c IH]; intros k H; [constructor|].
  cbn [seq map]. constructor.
  - apply IH. intros i j Hij Hj. apply H; lia.
  - apply Forall_forall. intros x Hx. apply in_map_iff in Hx as (j & <- & Hj).
    apply in_seq in Hj. apply H; lia.
Qed.

(** X10.  The spans of every Match are one unit wide, start at or after
    0, come in increasing order without touching each other, and are at
    most as many as the query has units. *)
Theorem spans_shape (this : t) (text : option jsString) (isBasename : bool) :
  exists r,
    searchText this text isBasename = Return r
    /\ forall m,
         AcronymSearchResult.match_ r = Some m ->
         (List.length (SearchResult.matches m)
          <= List.length (query this))%nat
         /\ Forall (fun span => (0 <= fst span)%Z
                                /\ snd span = (fst span + 1)%Z)
              (SearchResult.matches m)
         /\ StronglySorted (fun a b => (snd a < fst b)%Z)
              (SearchResult.matches m).
Proof.
  destruct (nonEmpty (query this)) eqn:Hq;
    [|rewrite (searchText_inert this Hq); exists noMatch;
      split; [reflexivity | discriminate]].
  destruct (truthy text) eqn:Ht;
    [|rewrite (searchText_falsy this text isBasename Ht); exists noMatch;
      split; [reflexivity | discriminate]].
  destruct text as [[|c text]|]; try discriminate.
  destruct (searchText_spec this (c :: text) isBasename Hq eq_refl)
    as [(H & _)|(k & _ & _ & _ & H)]; rewrite H;
    eexists; (split; [reflexivity|]); [discriminate|].
  intros m Hm. injection Hm as <-. cbn [SearchResult.matches].
  rewrite spans_seq.
  set (words := extractWords (c :: text)).
  set (count := (Nat.min (k + List.length (query this)) (List.length words)
                 - k)%nat).
  split; [rewrite length_map, length_seq; unfold count; lia|]. split.
  - apply Forall_forall. intros span Hs.
    apply in_map_iff in Hs as (j & <- & _). cbn [spanOf fst snd].
    split; [apply runningOffset_nonneg | reflexivity].
  - apply StronglySorted_map_seq. intros i j Hij Hj. cbn [spanOf fst snd].
    pose proof (runningOffset_increasing words
                  (extractWords_nonEmpty (c :: text)) i j) as Hinc.
    unfold count in Hj. lia.
Qed.

End SpanFacts.

Section ExactHighlights.

Variable sep : codeUnit.







End ExactHighlights.


(** ** Further properties: the locator, the index and the spans in general *)

Section SearcherFacts.

(** X11.  For a searcher with a search term and a non-empty text,
    [searchText] returns a Match exactly when the query is a contiguous
    run of the initials index; [matchIndex] is then the least offset of
    such a run, and it is -1 exactly when the result is No Match. *)
Theorem substring_locator (this : t) (text : jsString) (isBasename : bool) :
  nonEmpty (query this) = true ->
  nonEmpty text = true ->
  let index := Spec.buildIndex (extractWords text) in
  exists r matchIndex,
    searchText this (Some text) isBasename = Return r
    /\ matchIndexOf this text = Return matchIndex
    /\ (matched r = true <-> exists k, Spec.occursAt index (query this) k)
    /\ (matchIndex = (-1)%Z <-> r = noMatch)
    /\ (matched r = true ->
        exists k : nat,
          matchIndex = Z.of_nat k
          /\ Spec.occursAt index (query this) k
          /\ forall j, Spec.occursAt index (query this) j -> (k <= j)%nat).
Proof. apply searchText_locates. Qed.

Lemma substring_locator_witness :
  exists r matchIndex,
    searchText (new (Some (str "gts"))) (Some (str "get_the_score.txt")) false
    = Return r
    /\ matchIndexOf (new (Some (str "gts"))) (str "get_the_score.txt")
       = Return matchIndex
    /\ matched r = true
    /\ matchIndex = 0%Z.
Proof.
  destruct (substring_locator (new (Some (str "gts")))
              (str "get_the_score.txt") false eq_refl eq_refl)
    as (r & mi & Hr & Hmi & _).
  exists r, mi. split; [exact Hr|]. split; [exact Hmi|].
  vm_compute in Hr, Hmi. injection Hr as <-. injection Hmi as <-.
  split; reflexivity.
Defined.

(** X12.  The initials index of the words of a text is the lower-cased
    first unit of each word, in order; it has at least one unit per word,
    and exactly one when the text has no U+0130. *)
Theorem index_of_words (text : jsString) :
  createSearchableString (extractWords text)
  = Return (concat (map (fun w => toLowerCase (firstn 1 w))
                      (extractWords text)))
  /\ (List.length (extractWords text)
      <= List.length (Spec.buildIndex (extractWords text)))%nat
  /\ (~ In 304 text ->
      List.length (Spec.buildIndex (extractWords text))
      = List.length (extractWords text)).
Proof.
  split; [apply createSearchableString_extractWords|]. split.
  - apply buildIndex_length_ge, extractWords_nonEmpty.
  - apply buildIndex_extractWords_length.
Qed.

Lemma index_of_words_witness :
  List.length (Spec.buildIndex (extractWords (str "MyFirstComponent.jsx")))
  = List.length (extractWords (str "MyFirstComponent.jsx")).
Proof.
  apply (index_of_words (str "MyFirstComponent.jsx")).
  vm_compute. intuition discriminate.
Defined.

(** X13.  The spans of a Match are the one-unit spans at the running
    offsets of the words whose index lies in
    [[matchIndex, matchIndex + |query|)], in order; the running offset of
    a word is the sum, over the words before it, of their length plus
    one. *)
Theorem spans_of_match (this : t) (text : jsString) (isBasename : bool)
    (r : AcronymSearchResult.t) (m : SearchResult.t) :
  searchText this (Some text) isBasename = Return r ->
  AcronymSearchResult.match_ r = Some m ->
  exists k : nat,
    matchIndexOf this text = Return (Z.of_nat k)
    /\ SearchResult.matches m
       = map (fun j => (Spec.runningOffset (extractWords text) j,
                        (Spec.runningOffset (extractWords text) j + 1)%Z))
           (filter (fun j => (j <? List.length (extractWords text))%nat)
              (seq k (List.length (query this)))).
Proof.
  intros Hr Hm.
  destruct (searchText_spans this text isBasename r m Hr Hm)
    as (k & Hk & Hspans & _).
  now exists k.
Qed.

Lemma spans_of_match_witness :
  exists r m k,
    searchText (new (Some (str "f1t"))) (Some (str "file123test.md")) true
    = Return r
    /\ AcronymSearchResult.match_ r = Some m
    /\ matchIndexOf (new (Some (str "f1t"))) (str "file123test.md")
       = Return (Z.of_nat k)
    /\ SearchResult.matches m = [(0, 1); (5, 6); (9, 10)]%Z.
Proof.
  eexists. eexists.
  assert (Hr : searchText (new (Some (str "f1t")))
                 (Some (str "file123test.md")) true
               = Return
                   (AcronymSearchResult.mk
                      (Some (SearchResult.mk (400000 # 40000)
                               [(0, 1); (5, 6); (9, 10)]%Z))
                      (400000 # 40000)))
    by (vm_compute; reflexivity).
  destruct (spans_of_match _ _ _ _ _ Hr eq_refl) as (k & Hk & _).
  exists k. split; [exact Hr|]. split; [reflexivity|].
  split; [exact Hk | reflexivity].
Defined.

(** X14.  On a text without U+0130 the search is the acronym match: a
    Match exactly when the query spells the initials of a contiguous run
    of words; [matchIndex] is the index of the first word of the leftmost
    such run, and the spans are those of the words of the run, one per
    unit of the query. *)
Theorem acronym_match (this : t) (text : jsString) (isBasename : bool) :
  nonEmpty (query this) = true ->
  nonEmpty text = true ->
  ~ In 304 text ->
  let words := extractWords text in
  let run k :=
    Spec.buildIndex (firstn (List.length (query this)) (skipn k words)) in
  let isRun k :=
    (k + List.length (query this) <= List.length words)%nat
    /\ run k = query this in
  exists r,
    searchText this (Some text) isBasename = Return r
    /\ (matched r = true <-> exists k, isRun k)
    /\ (matched r = true ->
        exists (k : nat) (m : SearchResult.t),
          matchIndexOf this text = Return (Z.of_nat k)
          /\ isRun k
          /\ (forall j, isRun j -> (k <= j)%nat)
          /\ AcronymSearchResult.match_ r = Some m
          /\ SearchResult.matches m
             = map (spanOf words) (seq k (List.length (query this)))
          /\ SearchResult.matches m <> []).
Proof. apply searchText_acronym_match. Qed.

Lemma acronym_match_witness :
  exists r,
    searchText (new (Some (str "abc")))
      (Some (str "zebra-apple-banana-cherry.txt")) false = Return r
    /\ matched r = true.
Proof.
  destruct (acronym_match (new (Some (str "abc")))
              (str "zebra-apple-banana-cherry.txt") false eq_refl eq_refl)
    as (r & Hr & _).
  - vm_compute. intuition discriminate.
  - exists r. split; [exact Hr|].
    vm_compute in Hr. now injection Hr as <-.
Defined.

End SearcherFacts.

(** ** Further properties: the acronym results of the switcher *)

Section SortFacts.

Lemma orZero_eq (x : Q) : (orZero x == x)%Q.
Proof.
  unfold orZero. destruct (Qeq_bool x 0) eqn:E; [|reflexivity].
  apply Qeq_bool_iff in E. now rewrite E.
Qed.

Lemma byScore_le (x y : FileSuggestion.t) :
  Qle_bool (byScore x y) 0 = true <-> descending x y.
Proof.
  unfold byScore, descending, scoreOf. rewrite Qle_bool_iff, !orZero_eq.
  split; intros H; lra.
Qed.

Lemma sortInsert_perm {A} (cmp : A -> A -> Q) (x : A) (l : list A) :
  Permutation (sortInsert cmp x l) (x :: l).
Proof.
  induction l as [|y l IH]; [reflexivity|]. cbn [sortInsert].
  destruct (Qle_bool (cmp x y) 0); [reflexivity|].
  rewrite IH. apply perm_swap.
Qed.

Lemma sort_perm {A} (cmp : A -> A -> Q) (l : list A) :
  Permutation (sort cmp l) l.
Proof.
  induction l as [|x l IH]; [reflexivity|]. cbn [sort fold_right].
  fold (sort cmp l). rewrite sortInsert_perm. now constructor.
Qed.

Lemma descending_trans (a b c : FileSuggestion.t) :
  descending a b -> descending b c -> descending a c.
Proof. unfold descending. intros; lra. Qed.

Lemma sortInsert_sorted (x : FileSuggestion.t) (l : list FileSuggestion.t) :
  StronglySorted descending l ->
  StronglySorted descending (sortInsert byScore x l).
Proof.
  induction 1 as [|y l Hl IH Hy]; [repeat constructor|].
  cbn [sortInsert]. destruct (Qle_bool (byScore x y) 0) eqn:E.
  - apply byScore_le in E. constructor; [now constructor|].
    constructor; [assumption|].
    eapply Forall_impl; [|exact Hy]. intros z. now apply descending_trans.
  - constructor; [assumption|].
    apply (Permutation_Forall (Permutation_sym (sortInsert_perm byScore x l))).
    constructor; [|assumption].
    destruct (Qle_bool (byScore y x) 0) eqn:E'; [now apply byScore_le|].
    exfalso. unfold byScore in E, E'.
    assert (H1 : ~ (orZero (scoreOf y) - orZero (scoreOf x) <= 0)%Q)
      by (intros H; apply Qle_bool_iff in H; unfold scoreOf in H; congruence).
    assert (H2 : ~ (orZero (scoreOf x) - orZero (scoreOf y) <= 0)%Q)
      by (intros H; apply Qle_bool_iff in H; unfold scoreOf in H; congruence).
    lra.
Qed.

Lemma sort_sorted (l : list FileSuggestion.t) :
  StronglySorted descending (sort byScore l).
Proof.
  induction l as [|x l IH]; [constructor|]. now apply sortInsert_sorted.
Qed.

(** The sort is stable: suggestions of one score keep their order. *)
Lemma sortInsert_stable (v : Q) (x : FileSuggestion.t)
    (l : list FileSuggestion.t) :
  filter (fun s => Qeq_bool (scoreOf s) v) (sortInsert byScore x l)
  = filter (fun s => Qeq_bool (scoreOf s) v) (x :: l).
Proof.
  induction l as [|y l IH]; [reflexivity|]. cbn [sortInsert].
  destruct (Qle_bool (byScore x y) 0) eqn:E; [reflexivity|].
  cbn [filter] in *. rewrite IH.
  destruct (Qeq_bool (scoreOf x) v) eqn:Ex; [|reflexivity].
  destruct (Qeq_bool (scoreOf y) v) eqn:Ey; [|reflexivity].
  exfalso. apply Qeq_bool_iff in Ex, Ey.
  assert (H : descending x y) by (unfold descending; lra).
  apply byScore_le in H. congruence.
Qed.

Lemma sort_stable (v : Q) (l : list FileSuggestion.t) :
  filter (fun s => Qeq_bool (scoreOf s) v) (sort byScore l)
  = filter (fun s => Qeq_bool (scoreOf s) v) l.
Proof.
  induction l as [|x l IH]; [reflexivity|]. cbn [sort fold_right].
  fold (sort byScore l). rewrite sortInsert_stable. cbn [filter].
  now rewrite IH.
Qed.

Lemma StronglySorted_firstn {A} (R : A -> A -> Prop) (l : list A) :
  StronglySorted R l ->
  forall n,
    StronglySorted R (firstn n l)
    /\ forall x y, In x (firstn n l) -> In y (skipn n l) -> R x y.
Proof.
  induction 1 as [|a l Hl IH Ha]; intros n.
  - rewrite firstn_nil. split; [constructor | now intros].
  - destruct n as [|n]; [split; [constructor | now intros]|].
    destruct (IH n) as [Hs Hcross]. cbn [firstn skipn]. split.
    + constructor; [assumption|].
      rewrite Forall_forall in *. intros z Hz. apply Ha.
      rewrite <- (firstn_skipn n l). apply in_or_app. now left.
    + intros x y [<-|Hx] Hy; [|now apply Hcross].
      rewrite Forall_forall in Ha. apply Ha.
      rewrite <- (firstn_skipn n l). apply in_or_app. now right.
Qed.

Lemma filter_firstn_prefix {A} (f : A -> bool) (l : list A) (n : nat) :
  exists rest, filter f l = filter f (firstn n l) ++ rest.
Proof.
  exists (filter f (skipn n l)).
  now rewrite <- filter_app, firstn_skipn.
Qed.

End SortFacts.

Section AcronymResults.

(** The loop collects, in the order of the files, one suggestion for each
    file that [searchWithFallback] matches. *)
Lemma collectAcronymResults_spec (this : t) (allFiles : list TFile.t) :
  exists acronymResults,
    collectAcronymResults this allFiles = Return acronymResults
    /\ (forall s,
          In s acronymResults <->
          exists file r m,
            In file allFiles
            /\ searchWithFallback this (Some (TFile.name file))
                 (Some (segmentsOf file)) = Return r
            /\ AcronymSearchResult.match_ r = Some m
            /\ s = suggestionOf file m)
    /\ map FileSuggestion.file acronymResults
       = filter
           (fun file =>
              match searchWithFallback this (Some (TFile.name file))
                      (Some (segmentsOf file)) with
              | Return r => matched r
              | TypeError => false
              end)
           allFiles.
Proof.
  induction allFiles as [|file rest IH].
  - exists []. split; [reflexivity|]. split; [|reflexivity].
    intros s. split; [intros [] | now intros (f & r & m & [] & _)].
  - destruct IH as (acr & Hacr & Hin & Hkeep).
    destruct (searchWithFallback_returns this (Some (TFile.name file))
                (Some (segmentsOf file))) as (r & Hr & _).
    cbn [collectAcronymResults filter]. fold (segmentsOf file).
    rewrite Hr, Hacr. unfold bind, matched.
    destruct (AcronymSearchResult.match_ r) as [m|] eqn:Em.
    + exists (suggestionOf file m :: acr). split; [reflexivity|]. split.
      * intros s. split.
        -- intros [<-|Hs].
           ++ exists file, r, m. repeat split; [now left | assumption..].
           ++ apply Hin in Hs as (f & r' & m' & Hf & H).
              exists f, r', m'. split; [now right | exact H].
        -- intros (f & r' & m' & [<-|Hf] & Hr' & Hm' & ->).
           ++ left. rewrite Hr in Hr'. injection Hr' as <-. congruence.
           ++ right. apply Hin. now exists f, r', m'.
      * cbn [map suggestionOf FileSuggestion.file]. now rewrite Hkeep.
    + exists acr. split; [reflexivity|]. split; [|exact Hkeep].
      intros s. split.
      * intros Hs. apply Hin in Hs as (f & r' & m' & Hf & H).
        exists f, r', m'. split; [now right | exact H].
      * intros (f & r' & m' & [<-|Hf] & Hr' & Hm' & ->).
        -- rewrite Hr in Hr'. injection Hr' as <-. congruence.
        -- apply Hin. now exists f, r', m'.
Qed.

Lemma performAcronymSearch_ranked (query : jsString) (allFiles : list TFile.t) :
  exists out,
    performAcronymSearch query allFiles = Return out
    /\ (List.length out <= 50)%nat
    /\ StronglySorted descending out
    /\ Forall
         (fun s =>
            exists file r m,
              In file allFiles
              /\ searchWithFallback (new (Some query))
                   (Some (TFile.name file)) (Some (segmentsOf file))
                 = Return r
              /\ AcronymSearchResult.match_ r = Some m
              /\ s = suggestionOf file m)
         out.
Proof.
  unfold performAcronymSearch. cbv zeta.
  destruct (collectAcronymResults_spec (new (Some query)) allFiles)
    as (acr & -> & Hin & _).
  unfold bind. eexists. split; [reflexivity|]. split; [|split].
  - rewrite length_firstn. unfold maxAcronymResults. lia.
  - apply (StronglySorted_firstn _ _ (sort_sorted acr)).
  - apply Forall_forall. intros s Hs. apply Hin.
    apply (Permutation_in _ (sort_perm byScore acr)).
    rewrite <- (firstn_skipn maxAcronymResults (sort byScore acr)).
    apply in_or_app. now left.
Qed.

(** X15.  [performAcronymSearch] returns at most 50 suggestions, sorted
    by falling score; each one is built from a file of the vault and the
    Match that [searchWithFallback] returns for that file's name, basename
    and path. *)
Theorem acronym_results_ranked (query : jsString) (allFiles : list TFile.t) :
  exists out,
    performAcronymSearch query allFiles = Return out
    /\ (List.length out <= 50)%nat
    /\ StronglySorted descending out
    /\ Forall
         (fun s =>
            exists file r m,
              In file allFiles
              /\ searchWithFallback (new (Some query))
                   (Some (TFile.name file)) (Some (segmentsOf file))
                 = Return r
              /\ AcronymSearchResult.match_ r = Some m
              /\ s = suggestionOf file m)
         out.
Proof. apply performAcronymSearch_ranked. Qed.

(** X16.  A file that [searchWithFallback] matches is among the results
    of [performAcronymSearch], unless there are 50 results and none of
    them scores less than that file. *)
Theorem acronym_results_best (query : jsString) (allFiles : list TFile.t)
    (file : TFile.t) (r : AcronymSearchResult.t) (m : SearchResult.t) :
  In file allFiles ->
  searchWithFallback (new (Some query)) (Some (TFile.name file))
    (Some (segmentsOf file)) = Return r ->
  AcronymSearchResult.match_ r = Some m ->
  exists out,
    performAcronymSearch query allFiles = Return out
    /\ (In (suggestionOf file m) out
        \/ (List.length out = 50%nat
            /\ Forall (fun s => (SearchResult.score m <= scoreOf s)%Q) out)).
Proof.
  intros Hfile Hr Hm. unfold performAcronymSearch. cbv zeta.
  destruct (collectAcronymResults_spec (new (Some query)) allFiles)
    as (acr & -> & Hin & _).
  unfold bind. eexists. split; [reflexivity|].
  assert (Hs : In (suggestionOf file m) (sort byScore acr)).
  { apply (Permutation_in _ (Permutation_sym (sort_perm byScore acr))).
    apply Hin. now exists file, r, m. }
  rewrite <- (firstn_skipn maxAcronymResults (sort byScore acr)) in Hs.
  apply in_app_or in Hs as [Hs|Hs]; [now left|]. right. split.
  - rewrite length_firstn. unfold maxAcronymResults in *.
    destruct (Nat.le_gt_cases 50 (List.length (sort byScore acr)))
      as [H|H]; [lia|].
    rewrite skipn_all2 in Hs by lia. destruct Hs.
  - apply Forall_forall. intros s Hfirst.
    apply (proj2 (StronglySorted_firstn _ _ (sort_sorted acr)
                    maxAcronymResults) s _ Hfirst Hs).
Qed.

(** X17.  The sort keeps ties in place: for every score, the results of
    [performAcronymSearch] with that score are the first of the matched
    files with that score, in the order of the vault. *)
Theorem acronym_results_ties (query : jsString) (allFiles : list TFile.t)
    (v : Q) :
  exists collected out rest,
    collectAcronymResults (new (Some query)) allFiles = Return collected
    /\ map FileSuggestion.file collected
       = filter
           (fun file =>
              match searchWithFallback (new (Some query))
                      (Some (TFile.name file)) (Some (segmentsOf file)) with
              | Return r => matched r
              | TypeError => false
              end)
           allFiles
    /\ performAcronymSearch query allFiles = Return out
    /\ filter (fun s => Qeq_bool (scoreOf s) v) collected
       = filter (fun s => Qeq_bool (scoreOf s) v) out ++ rest.
Proof.
  unfold performAcronymSearch. cbv zeta.
  destruct (collectAcronymResults_spec (new (Some query)) allFiles)
    as (acr & -> & _ & Hkeep).
  unfold bind.
  destruct (filter_firstn_prefix (fun s => Qeq_bool (scoreOf s) v)
              (sort byScore acr) maxAcronymResults) as (rest & Hrest).
  exists acr, (firstn maxAcronymResults (sort byScore acr)), rest.
  split; [reflexivity|]. split; [exact Hkeep|]. split; [reflexivity|].
  now rewrite <- Hrest, sort_stable.
Qed.

End AcronymResults.

Lemma acronym_results_best_witness :
  exists m out,
    performAcronymSearch (str "mfc") [exampleFile] = Return out
    /\ (In (suggestionOf exampleFile m) out
        \/ (List.length out = 50%nat
            /\ Forall (fun s => (SearchResult.score m <= scoreOf s)%Q) out)).
Proof.
  eexists.
  eapply (acronym_results_best (str "mfc") [exampleFile] exampleFile);
    [now left | vm_compute; reflexivity | reflexivity].
Defined.

(** ** Further properties: merging into the suggestions *)

Section Merge.

Variable OtherSuggestion : Type.
Variable otherFile : OtherSuggestion -> option TFile.t.
Variable addProperties :
  AnySuggestion OtherSuggestion -> AnySuggestion OtherSuggestion.

Lemma stringEqb_eq (a b : jsString) : stringEqb a b = true <-> a = b.
Proof.
  revert b. induction a as [|x a IH]; intros [|y b]; simpl;
    try (split; [discriminate | discriminate]); [now split|].
  rewrite andb_true_iff, N.eqb_eq, IH. split.
  - now intros [-> ->].
  - intros H. injection H as -> ->. now split.
Qed.

Lemma setHas_In (set : list jsString) (s : jsString) :
  setHas set s = true <-> In s set.
Proof.
  unfold setHas. rewrite existsb_exists. split.
  - intros (x & Hx & E). apply stringEqb_eq in E. now subst.
  - intros H. exists s. split; [assumption | now apply stringEqb_eq].
Qed.

Lemma existingFilePaths_In (standardResults : list (AnySuggestion OtherSuggestion))
    (p : jsString) :
  In p (existingFilePaths otherFile standardResults)
  <-> exists r f,
        In r standardResults /\ fileOf otherFile r = Some f
        /\ TFile.path f = p.
Proof.
  unfold existingFilePaths. rewrite in_flat_map. split.
  - intros (r & Hr & Hp). destruct (fileOf otherFile r) as [f|] eqn:E;
      [|destruct Hp].
    destruct Hp as [<-|[]]. now exists r, f.
  - intros (r & f & Hr & Hf & <-). exists r. rewrite Hf.
    split; [assumption | now left].
Qed.

Lemma mergeSearchResults_kept
    (standardResults : list (AnySuggestion OtherSuggestion))
    (acronymResults : list FileSuggestion.t) :
  exists kept keep,
    mergeSearchResults otherFile addProperties standardResults acronymResults
    = standardResults ++ map (fun s => addProperties (OfFile s)) kept
    /\ kept = filter keep acronymResults
    /\ forall s,
         In s kept <->
         In s acronymResults
         /\ forall r f,
              In r standardResults ->
              fileOf otherFile r = Some f ->
              TFile.path f <> TFile.path (FileSuggestion.file s).
Proof.
  eexists. eexists. split; [reflexivity|]. split; [reflexivity|].
  intros s. rewrite filter_In, negb_true_iff. split.
  - intros [Hs Hnot]. split; [assumption|]. intros r f Hr Hf E.
    assert (H : setHas (existingFilePaths otherFile standardResults)
                  (TFile.path (FileSuggestion.file s)) = true)
      by (apply setHas_In, existingFilePaths_In; now exists r, f).
    congruence.
  - intros [Hs Hnot]. split; [assumption|].
    destruct (setHas (existingFilePaths otherFile standardResults)
                (TFile.path (FileSuggestion.file s))) eqn:E; [|reflexivity].
    apply setHas_In, existingFilePaths_In in E as (r & f & Hr & Hf & Hp).
    now destruct (Hnot r f Hr Hf).
Qed.

(** X18.  [mergeSearchResults] returns the standard suggestions, then the
    acronym suggestions whose file path is not the path of the file of any
    standard suggestion, in their order and after
    [addPropertiesToStandardSuggestions]. *)
Theorem merge_drops_known_paths
    (standardResults : list (AnySuggestion OtherSuggestion))
    (acronymResults : list FileSuggestion.t) :
  exists kept keep,
    mergeSearchResults otherFile addProperties standardResults acronymResults
    = standardResults ++ map (fun s => addProperties (OfFile s)) kept
    /\ kept = filter keep acronymResults
    /\ forall s,
         In s kept <->
         In s acronymResults
         /\ forall r f,
              In r standardResults ->
              fileOf otherFile r = Some f ->
              TFile.path f <> TFile.path (FileSuggestion.file s).
Proof. apply mergeSearchResults_kept. Qed.

End Merge.

Section TrimTwice.

Lemma trimStart_idempotent (s : jsString) :
  trimStart (trimStart s) = trimStart s.
Proof.
  induction s as [|c s IH]; [reflexivity|]. cbn [trimStart].
  destruct (isWhiteSpace c) eqn:E; [exact IH|]. cbn [trimStart].
  now rewrite E.
Qed.

Lemma trimStart_head (s : jsString) (x : codeUnit) (rest : jsString) :
  trimStart s = x :: rest -> isWhiteSpace x = false.
Proof.
  induction s as [|c s IH]; [discriminate|]. cbn [trimStart].
  destruct (isWhiteSpace c) eqn:E; [exact IH|].
  intros H. injection H as <- _. exact E.
Qed.

Lemma trimStart_snoc (l : jsString) (x : codeUnit) :
  isWhiteSpace x = false -> trimStart (l ++ [x]) = trimStart l ++ [x].
Proof.
  intros Hx. rewrite trimStart_app.
  destruct (forallb isWhiteSpace l) eqn:E; [|reflexivity].
  rewrite (trimStart_blank l E). cbn [trimStart app]. now rewrite Hx.
Qed.

Lemma trim_idempotent (s : jsString) : trim (trim s) = trim s.
Proof.
  unfold trim, trimEnd.
  destruct (trimStart s) as [|x a] eqn:Ea; [reflexivity|].
  pose proof (trimStart_head s x a Ea) as Hx.
  cbn [rev]. rewrite (trimStart_snoc (rev a) x Hx).
  rewrite rev_app_distr. cbn [rev app trimStart]. rewrite Hx.
  cbn [rev]. rewrite rev_involutive.
  rewrite (trimStart_snoc _ x Hx), trimStart_idempotent.
  now rewrite rev_app_distr.
Qed.

End TrimTwice.

(** ** Further properties: [getSuggestions] *)

Section Suggestions.

Variable OtherSuggestion : Type.
Variable otherFile : OtherSuggestion -> option TFile.t.
Variable addProperties :
  AnySuggestion OtherSuggestion -> AnySuggestion OtherSuggestion.

Lemma StronglySorted_filter {A} (R : A -> A -> Prop) (f : A -> bool)
    (l : list A) :
  StronglySorted R l -> StronglySorted R (filter f l).
Proof.
  induction 1 as [|a l Hl IH Ha]; [constructor|]. cbn [filter].
  destruct (f a); [|assumption]. constructor; [assumption|].
  rewrite Forall_forall in *. intros x Hx. apply Ha.
  now apply filter_In in Hx.
Qed.

Lemma new_trim (q : jsString) : new (Some (trim q)) = new (Some q).
Proof. unfold new. now rewrite trim_idempotent. Qed.

(** X19.  [getSuggestions] returns the suggestions of the system switcher
    first, in their order, followed by at most 50 acronym suggestions in
    falling score order; each of these is the Match of the searcher of the
    query for a file of the vault whose path is not the path of the file
    of a standard suggestion; there are none when the option is off or the
    query is blank. *)
Theorem getSuggestions_shape (enableAcronymSearch : bool) (query : jsString)
    (results : list (AnySuggestion OtherSuggestion))
    (allFiles : list TFile.t) :
  exists tail,
    getSuggestions otherFile addProperties enableAcronymSearch query results
      allFiles
    = Return (map addProperties results
              ++ map (fun s => addProperties (OfFile s)) tail)
    /\ (List.length tail <= 50)%nat
    /\ StronglySorted descending tail
    /\ Forall
         (fun s =>
            (exists file r m,
                In file allFiles
                /\ searchWithFallback (new (Some query))
                     (Some (TFile.name file)) (Some (segmentsOf file))
                   = Return r
                /\ AcronymSearchResult.match_ r = Some m
                /\ s = suggestionOf file m)
            /\ forall r f,
                 In r (map addProperties results) ->
                 fileOf otherFile r = Some f ->
                 TFile.path f <> TFile.path (FileSuggestion.file s))
         tail
    /\ (enableAcronymSearch = false \/ blank (Some query) = true ->
        tail = []).
Proof.
  unfold getSuggestions. cbv zeta.
  destruct (enableAcronymSearch && nonEmpty query
            && (0 <? JS.length (trim query))%Z) eqn:Guard.
  - destruct (performAcronymSearch_ranked (trim query) allFiles)
      as (out & -> & Hlen & Hsorted & Hall).
    rewrite new_trim in Hall. unfold bind.
    destruct (mergeSearchResults_kept OtherSuggestion otherFile addProperties
                (map addProperties results) out)
      as (kept & keep & -> & -> & Hkept).
    exists (filter keep out). split; [reflexivity|]. split; [|split; [|split]].
    + pose proof (filter_length_le keep out). lia.
    + now apply StronglySorted_filter.
    + apply Forall_forall. intros s Hs. apply Hkept in Hs as [Hs Hpath].
      rewrite Forall_forall in Hall. split; [now apply Hall | exact Hpath].
    + apply andb_true_iff in Guard as [Guard Hlen'].
      apply andb_true_iff in Guard as [Hen _].
      intros [H|H]; [congruence|]. cbn [blank] in H.
      rewrite (trim_blank query H) in Hlen'. discriminate.
  - exists []. cbn [map]. rewrite app_nil_r.
    split; [reflexivity|]. split; [simpl; lia|].
    split; [constructor|]. split; [constructor | reflexivity].
Qed.

End Suggestions.
